(** * tumblream: incremental photo-feed polling and idempotent downloads

    A shallow embedding of [main.go]: the per-agent scan loop ([Agent.Run]),
    the page fetcher ([Agent.Fetch]), the downloader ([Saver.Save]) and the
    body of one scheduler tick, followed by the properties proved about
    them.

    Conventions.
    - Go's [int64] and [int] are [Z]; the only arithmetic the program does
      on them ([offset += limit]) is written with its 64-bit wrap-around.
    - A Go [error] is the string its [Error()] method returns.
    - The remote API and the file system are explicit arguments: the
      network is an oracle answering requests, the output directory is a
      finite map from file names to contents.
    - The unbuffered channel [saver.queue] is modelled by the list of URLs
      sent on it, oldest first. *)

From Stdlib Require Import ZArith String Ascii List Sorted Lia.
From stdpp Require Import gmap strings list fin_maps.
Import ListNotations.

Local Open Scope Z_scope.

(** ** Go machine integers *)

Module GoInt.

Definition int_min : Z := - 2 ^ 63.
Definition int_max : Z := 2 ^ 63 - 1.

(** Two's-complement wrap-around of a 64-bit signed integer. *)
Definition wrap (z : Z) : Z := (z + 2 ^ 63) mod 2 ^ 64 - 2 ^ 63.

Definition add (x y : Z) : Z := wrap (x + y).

Definition in_range (z : Z) : Prop := int_min <= z <= int_max.

End GoInt.

(** ** Wire types *)

Definition error := string.

(** One entry of [alt_sizes].  [Width] and [Height] are decoded by the
    program but never read, so only [Url] is kept. *)
Record AltSize := { Url : string }.

Record TumblrResponsePhoto := { AltSizes : list AltSize }.

Record Post := { Id : Z; Photos : list TumblrResponsePhoto }.

Record MetaT := { Status : Z; Msg : string }.

Record ResponseT := { Posts : list Post }.

Record TumblrResponse := { Meta : MetaT; Response : ResponseT }.

(** What the outside world answers to one API request, seen through
    [url.Parse], [http.Get] and [json.Decoder.Decode]. *)
Inductive ApiAnswer :=
| UrlParseFails (e : error)
| GetFails (e : error)
| DecodeFails (e : error)
| Decoded (r : TumblrResponse).

(** The remote API: host name, API key, limit and offset to an answer. *)
Definition Upstream := string -> string -> Z -> Z -> ApiAnswer.

(** ** Agent *)

Record Agent := { lastId : Z; Hostname : string; ApiKey : string }.

Definition set_lastId (a : Agent) (v : Z) : Agent :=
  {| lastId := v; Hostname := Hostname a; ApiKey := ApiKey a |}.

(** [Agent.Reset] *)
Definition Reset (a : Agent) : Agent := set_lastId a 0.

(** [Agent.Fetch(limit, offset)]: a decoded response or an error. *)
Definition Fetch (net : Upstream) (a : Agent) (limit offset : Z)
  : error + TumblrResponse :=
  match net (Hostname a) (ApiKey a) limit offset with
  | UrlParseFails e => inl e
  | GetFails e => inl e
  | DecodeFails e => inl e
  | Decoded jsonResp =>
      if negb (Status (Meta jsonResp) =? 200)
      then inl ("tumblr error: " ++ Msg (Meta jsonResp))%string
      else inr jsonResp
  end.

(** How a scan ends: [return nil], [return err], or a run-time panic
    (index out of range). *)
Inductive Outcome :=
| RunOk
| RunErr (e : error)
| RunPanic.

(** How the loop over the posts of one page ends: it ran to the end of the
    page, it executed [break OUTER], or it panicked. *)
Inductive PageCtl :=
| PageDone
| BreakOuter
| PagePanic.

(** [for _, photo := range post.Photos { q <- photo.AltSizes[0].Url }] *)
Fixpoint send_photos (photos : list TumblrResponsePhoto) (q : list string)
  : bool * list string :=
  match photos with
  | [] => (true, q)
  | photo :: rest =>
      match AltSizes photo with
      | [] => (false, q)
      | sz :: _ => send_photos rest (q ++ [Url sz])
      end
  end.

(** [for _, post := range resp.Response.Posts { ... }] *)
Fixpoint scan_posts (a_lastId : Z) (posts : list Post) (q : list string)
  : PageCtl * list string :=
  match posts with
  | [] => (PageDone, q)
  | post :: rest =>
      if a_lastId =? Id post then (BreakOuter, q)
      else if a_lastId >? Id post then (BreakOuter, q)
      else
        match send_photos (Photos post) q with
        | (false, q') => (PagePanic, q')
        | (true, q') => scan_posts a_lastId rest q'
        end
  end.

(** State of a scan: the agent, the URLs sent so far, and the offsets
    requested so far (oldest first). *)
Record Scan := {
  agent : Agent;
  queue : list string;
  fetched : list Z;
  outcome : Outcome
}.

Definition limit : Z := 20.

(** The code after the [OUTER] loop. *)
Definition finish (a : Agent) (lastId' : Z) (q : list string) (log : list Z)
  : Scan :=
  let a' :=
    if negb (lastId' =? 0) && negb (lastId a =? lastId')
    then set_lastId a lastId' else a in
  {| agent := a'; queue := q; fetched := log; outcome := RunOk |}.

(** The [OUTER] loop; [fuel] bounds the number of iterations, [None] means
    the bound was reached. *)
Fixpoint Run_loop (fuel : nat) (net : Upstream) (a : Agent)
    (offset lastId' : Z) (q : list string) (log : list Z) : option Scan :=
  match fuel with
  | O => None
  | S fuel' =>
      let log := log ++ [offset] in
      match Fetch net a limit offset with
      | inl err =>
          Some {| agent := a; queue := q; fetched := log;
                  outcome := RunErr err |}
      | inr resp =>
          let posts := Posts (Response resp) in
          match posts with
          | [] => Some (finish a lastId' q log)
          | first :: _ =>
              let lastId' := if lastId' =? 0 then Id first else lastId' in
              if lastId a =? 0 then Some (finish a lastId' q log)
              else
                match scan_posts (lastId a) posts q with
                | (BreakOuter, q') => Some (finish a lastId' q' log)
                | (PagePanic, q') =>
                    Some {| agent := a; queue := q'; fetched := log;
                            outcome := RunPanic |}
                | (PageDone, q') =>
                    Run_loop fuel' net a (GoInt.add offset limit) lastId'
                             q' log
                end
          end
      end
  end.

(** [Agent.Run(q)] *)
Definition Run (fuel : nat) (net : Upstream) (a : Agent) (q : list string)
  : option Scan :=
  Run_loop fuel net a 0 0 q [].

(** The body of the goroutine that [main] starts for each agent on a tick:
    [if err := agent.Run(saver.queue); err != nil { agent.Reset() }]. *)
Definition agent_tick (fuel : nat) (net : Upstream) (a : Agent)
    (q : list string) : option Scan :=
  match Run fuel net a q with
  | None => None
  | Some r =>
      match outcome r with
      | RunErr _ =>
          Some {| agent := Reset (agent r); queue := queue r;
                  fetched := fetched r; outcome := outcome r |}
      | _ => Some r
      end
  end.

(** ** Saver *)

(** [strings.Split(s, sep)] for a one-character separator: [cur] is the
    piece being read. *)
Fixpoint split_from (sep : ascii) (cur s : string) : list string :=
  match s with
  | EmptyString => [cur]
  | String c rest =>
      if Ascii.eqb c sep then cur :: split_from sep EmptyString rest
      else split_from sep (cur ++ String c EmptyString)%string rest
  end.

Definition Split (s : string) (sep : ascii) : list string :=
  split_from sep EmptyString s.

(** [splited[len(splited)-1]] with [splited := strings.Split(url, "/")];
    the default is never used, [Split] has at least one piece. *)
Definition last_segment (url : string) : string :=
  List.last (Split url "/"%char) EmptyString.

(** The body of a successful [http.Get] as [io.Copy] sees it: the bytes it
    moves into the file before it stops, and the error it stops with, if
    any. *)
Record Body := { copied : list Byte.byte; copy_err : option error }.

Inductive GetAnswer :=
| GetError (e : error)
| GetBody (b : Body).

(** The outside world of the saver: what the [n]-th [http.Get] of the
    process answers for a URL, and the message of the error that creating
    a file name meets when no file of [files] has that name (no such
    directory, permission denied, or again "file exists" when the name is
    taken by a directory). *)
Record Env := {
  web : nat -> string -> GetAnswer;
  open_fault : string -> option error
}.

(** The state the saver acts on: the files of the output directory, the
    URLs requested so far and the lines logged so far (oldest first). *)
Record World := {
  files : gmap string (list Byte.byte);
  requests : list string;
  logs : list string
}.

Definition with_files (w : World) (fs : gmap string (list Byte.byte)) : World :=
  {| files := fs; requests := requests w; logs := logs w |}.

Definition with_request (w : World) (url : string) : World :=
  {| files := files w; requests := requests w ++ [url]; logs := logs w |}.

(** [Saver.Log]: every operand is a string, so [fmt.Sprint] concatenates. *)
Definition saver_Log (w : World) (line : string) : World :=
  {| files := files w; requests := requests w;
     logs := logs w ++ [("[saver] " ++ line)%string] |}.

Definition file_exists_msg : string := "file exists".

(** [os.OpenFile(fileName, O_WRONLY|O_CREATE|O_EXCL, 0666)]: the message of
    the [PathError]'s [Err], or the world with the new, empty file. *)
Definition OpenFile_excl (env : Env) (fileName : string) (w : World)
  : error + World :=
  match files w !! fileName with
  | Some _ => inl file_exists_msg
  | None =>
      match open_fault env fileName with
      | Some e => inl e
      | None => inr (with_files w (<[fileName := []]> (files w)))
      end
  end.

Record Saver := { Dir : string }.

Section SaverCode.

(** [filepath.Join] of the Go library. *)
Variable filepath_Join : string -> string -> string.

Definition file_name (s : Saver) (url : string) : string :=
  filepath_Join (Dir s) (last_segment url).

(** [Saver.Save(url)]: the world afterwards and the returned error
    ([None] is [nil]). *)
Definition Save (env : Env) (s : Saver) (url : string) (w : World)
  : World * option error :=
  let fileName := file_name s url in
  let resp := web env (length (requests w)) url in
  let w := with_request w url in
  match resp with
  | GetError e => (w, Some e)
  | GetBody b =>
      match OpenFile_excl env fileName w with
      | inl e =>
          if String.eqb e file_exists_msg
          then (saver_Log w (fileName ++ " is exists. so skip it."), None)
          else (w, Some e)
      | inr w =>
          let w := with_files w (<[fileName := copied b]> (files w)) in
          match copy_err b with
          | Some e => (w, Some e)
          | None =>
              (saver_Log w ("saved " ++ url ++ " to " ++ fileName), None)
          end
      end
  end.

(** [Save] for each URL of a list, each call finishing before the next
    starts; the returned errors, oldest first. *)
Fixpoint Save_all (env : Env) (s : Saver) (urls : list string) (w : World)
  : World * list (option error) :=
  match urls with
  | [] => (w, [])
  | url :: rest =>
      let '(w1, r) := Save env s url w in
      let '(w2, rs) := Save_all env s rest w1 in
      (w2, r :: rs)
  end.

(** *** Downloads running concurrently

    [Saver.Run] starts one goroutine per received URL.  A goroutine is
    followed through the points where [Save] touches the world: before
    [http.Get], before [os.OpenFile], while [io.Copy] moves the body
    (one byte per step, the finest interleaving), and after [return]. *)

Inductive Task :=
| AtGet (url : string)
| AtOpen (url : string) (b : Body)
| AtCopy (url fileName : string) (rest : list Byte.byte)
         (cerr : option error)
| Returned (r : option error).

(** One step of one goroutine. *)
Definition task_step (env : Env) (s : Saver) (t : Task) (w : World)
  : Task * World :=
  match t with
  | AtGet url =>
      let resp := web env (length (requests w)) url in
      let w := with_request w url in
      match resp with
      | GetError e => (Returned (Some e), w)
      | GetBody b => (AtOpen url b, w)
      end
  | AtOpen url b =>
      let fileName := file_name s url in
      match OpenFile_excl env fileName w with
      | inl e =>
          if String.eqb e file_exists_msg
          then (Returned None,
                saver_Log w (fileName ++ " is exists. so skip it."))
          else (Returned (Some e), w)
      | inr w => (AtCopy url fileName (copied b) (copy_err b), w)
      end
  | AtCopy url fileName (x :: rest) cerr =>
      let old := default [] (files w !! fileName) in
      (AtCopy url fileName rest cerr,
       with_files w (<[fileName := old ++ [x]]> (files w)))
  | AtCopy url fileName [] (Some e) => (Returned (Some e), w)
  | AtCopy url fileName [] None =>
      (Returned None, saver_Log w ("saved " ++ url ++ " to " ++ fileName))
  | Returned r => (Returned r, w)
  end.

(** What happens next in the process: [Saver.Run] receives a URL and
    starts a goroutine for it, or the goroutine started [i]-th makes a
    step. *)
Inductive Event :=
| Spawn (url : string)
| Step (i : nat).

Definition System : Type := list Task * World.

Definition sys_step (env : Env) (s : Saver) (ev : Event) (sy : System)
  : System :=
  let '(ts, w) := sy in
  match ev with
  | Spawn url => (ts ++ [AtGet url], w)
  | Step i =>
      match ts !! i with
      | None => (ts, w)
      | Some t =>
          let '(t', w') := task_step env s t w in
          (<[i := t']> ts, w')
      end
  end.

Definition sys_run (env : Env) (s : Saver) (evs : list Event) (sy : System)
  : System :=
  fold_left (fun sy ev => sys_step env s ev sy) evs sy.

(** One goroutine followed for [n] steps. *)
Fixpoint task_run (n : nat) (env : Env) (s : Saver) (t : Task) (w : World)
  : Task * World :=
  match n with
  | O => (t, w)
  | S n' =>
      let '(t', w') := task_step env s t w in
      task_run n' env s t' w'
  end.

End SaverCode.

(** The goroutine is not in the middle of writing the file [f]. *)
Definition not_copying_to (f : string) (t : Task) : Prop :=
  match t with
  | AtCopy _ fileName _ _ => fileName <> f
  | _ => True
  end.

(** ** Vocabulary of the properties *)

(** The canonical URL of a photo is its first variant; a photo without
    variants has none. *)
Definition canonical_urls (photos : list TumblrResponsePhoto) : list string :=
  flat_map (fun photo =>
              match AltSizes photo with
              | [] => []
              | sz :: _ => [Url sz]
              end) photos.

Definition urls_of (posts : list Post) : list string :=
  flat_map (fun post => canonical_urls (Photos post)) posts.

Definition has_variants (post : Post) : Prop :=
  Forall (fun photo => AltSizes photo <> []) (Photos post).

(** The posts of the page that a successful fetch at [offset] returns. *)
Definition page_at (net : Upstream) (a : Agent) (offset : Z)
  : option (list Post) :=
  match Fetch net a limit offset with
  | inl _ => None
  | inr resp => Some (Posts (Response resp))
  end.

(** The upstream answers the requests at [offset], [offset + 20], ... with
    the pages of [pages], in this order. *)
Definition serves (net : Upstream) (a : Agent) (offset : Z)
    (pages : list (list Post)) : Prop :=
  forall (k : nat) (pg : list Post),
    pages !! k = Some pg ->
    page_at net a (offset + limit * Z.of_nat k) = Some pg.

(** A post is new for watermark [W] when its identifier is above it. *)
Definition is_new (W : Z) (post : Post) : bool := W <? Id post.

Fixpoint take_while {A} (f : A -> bool) (l : list A) : list A :=
  match l with
  | [] => []
  | x :: l' => if f x then x :: take_while f l' else []
  end.

(** Number of requests of a scan over [pages]: one per page up to and
    including the first page holding a post that is not new, and one for
    the empty page that ends the scan when there is no such post. *)
Fixpoint fetch_count (W : Z) (pages : list (list Post)) : nat :=
  match pages with
  | [] => 1
  | pg :: rest =>
      if forallb (is_new W) pg then S (fetch_count W rest) else 1
  end.

Fixpoint offsets (offset : Z) (n : nat) : list Z :=
  match n with
  | O => []
  | S n' => offset :: offsets (offset + limit) n'
  end.

(** The watermark candidate after one more page: the identifier of its
    first post if no candidate is held yet. *)
Definition first_id (lid : Z) (pg : list Post) : Z :=
  match pg with
  | [] => lid
  | first :: _ => if lid =? 0 then Id first else lid
  end.

Definition candidate (lid : Z) (pages : list (list Post)) : Z :=
  fold_left first_id pages lid.

(** Identifiers strictly decreasing along a list of posts. *)
Definition decreasing_ids (posts : list Post) : Prop :=
  StronglySorted (fun p p' => Id p' < Id p) posts.

(** The string holds a ['/']. *)
Fixpoint has_slash (s : string) : bool :=
  match s with
  | EmptyString => false
  | String c rest => Ascii.eqb c "/"%char || has_slash rest
  end.

(** ** Concrete feeds

    Small upstreams on which the properties are exercised. *)

Definition photo (u : string) : TumblrResponsePhoto :=
  {| AltSizes := [ {| Url := u |} ] |}.

Definition post (i : Z) (us : list string) : Post :=
  {| Id := i; Photos := map photo us |}.

Definition ok_page (posts : list Post) : ApiAnswer :=
  Decoded {| Meta := {| Status := 200; Msg := "OK" |};
             Response := {| Posts := posts |} |}.

Definition blog (W : Z) : Agent :=
  {| lastId := W; Hostname := "blog.example.com"; ApiKey := "key" |}.

(** An upstream that answers the requests at offsets 0, 20, 40, ... with
    the given answers and an empty page afterwards. *)
Definition upstream_of (answers : list ApiAnswer) : Upstream :=
  fun _ _ lim offset =>
    if (0 <=? offset) && (offset mod lim =? 0)
    then nth (Z.to_nat (offset / lim)) answers (ok_page [])
    else ok_page [].

Definition page_first : list Post :=
  [post 105 ["https://m.example.com/a/p105.jpg"];
   post 103 ["https://m.example.com/a/p103.jpg"]].

Definition page_next : list Post :=
  [post 110 ["https://m.example.com/a/p110a.jpg";
             "https://m.example.com/a/p110b.jpg"];
   post 108 ["https://m.example.com/a/p108.jpg"];
   post 105 ["https://m.example.com/a/p105.jpg"]].

Definition page_newer : list Post :=
  [post 130 ["https://m.example.com/a/p130.jpg"];
   post 120 []].

(** A post whose only photo lists no variant. *)
Definition page_no_variant : list Post :=
  [ {| Id := 110; Photos := [ {| AltSizes := [] |} ] |} ].

(** A page that breaks the ordering: a post below the watermark comes
    before a newer one. *)
Definition page_disordered : list Post :=
  [post 110 ["https://m.example.com/a/p110a.jpg"];
   post 90 ["https://m.example.com/a/p90.jpg"];
   post 120 ["https://m.example.com/a/p120.jpg"]].

(** ** Concrete downloads *)

(** A join that puts a separator between its arguments; the properties do
    not depend on what [filepath.Join] computes. *)
Definition simple_join (dir name : string) : string :=
  (dir ++ "/" ++ name)%string.

Definition out_dir : Saver := {| Dir := "/out" |}.

Definition url_abc : string := "https://x.example.com/img/abc.jpg".

Definition url_abc_mirror : string := "https://y.example.com/other/abc.jpg".

Definition body_abc : Body :=
  {| copied := [Byte.x61; Byte.x62; Byte.x63]; copy_err := None |}.

Definition body_mirror : Body :=
  {| copied := [Byte.x78; Byte.x79]; copy_err := None |}.

(** Every request is answered; the mirror serves other bytes. *)
Definition env_up : Env :=
  {| web := fun _ url =>
              if String.eqb url url_abc_mirror then GetBody body_mirror
              else GetBody body_abc;
     open_fault := fun _ => None |}.

(** The mirror does not answer. *)
Definition env_mirror_down : Env :=
  {| web := fun _ url =>
              if String.eqb url url_abc_mirror then GetError "timeout"
              else GetBody body_abc;
     open_fault := fun _ => None |}.

Definition empty_world : World :=
  {| files := ∅; requests := []; logs := [] |}.

(** ** The rest of the program *)

(** The agents [main] builds from the flags [apikey] and [hostnames]:
    [for _, hostname := range strings.Split(hostnames, ",")]. *)
Definition make_agents (apiKey hostnames : string) : list Agent :=
  map (fun hostname =>
         {| lastId := 0; Hostname := hostname; ApiKey := apiKey |})
      (Split hostnames ","%char).

(** [main] up to its loop: [log.Fatal("empty agents")] or the agents. *)
Definition main_agents (apiKey hostnames : string) : error + list Agent :=
  let agents := make_agents apiKey hostnames in
  if (length agents =? 0)%nat then inl "empty agents"%string
  else inr agents.

(** The string holds the character [c]. *)
Fixpoint has_char (c : ascii) (s : string) : bool :=
  match s with
  | EmptyString => false
  | String c' rest => Ascii.eqb c' c || has_char c rest
  end.

Fixpoint count_char (c : ascii) (s : string) : nat :=
  match s with
  | EmptyString => O
  | String c' rest =>
      if Ascii.eqb c' c then S (count_char c rest) else count_char c rest
  end.

(** A scan seen from its queue: the same scan with [q0] already sent. *)
Definition sent_after (q0 : list string) (r : Scan) : Scan :=
  {| agent := agent r; queue := q0 ++ queue r; fetched := fetched r;
     outcome := outcome r |}.

(** The [OUTER] loop as a relation between the state at the head of an
    iteration and the scan it ends in, one rule per way through the loop
    body. *)
Inductive scan_ends (net : Upstream) (a : Agent)
  : Z -> Z -> list string -> list Z -> Scan -> Prop :=
| ends_error offset lid q log e :
    Fetch net a limit offset = inl e ->
    scan_ends net a offset lid q log
      {| agent := a; queue := q; fetched := log ++ [offset];
         outcome := RunErr e |}
| ends_empty offset lid q log :
    page_at net a offset = Some [] ->
    scan_ends net a offset lid q log (finish a lid q (log ++ [offset]))
| ends_bootstrap offset lid q log pg :
    page_at net a offset = Some pg -> pg <> [] ->
    lastId a = 0 ->
    scan_ends net a offset lid q log
      (finish a (first_id lid pg) q (log ++ [offset]))
| ends_break offset lid q log pg q' :
    page_at net a offset = Some pg -> pg <> [] ->
    lastId a <> 0 ->
    scan_posts (lastId a) pg q = (BreakOuter, q') ->
    scan_ends net a offset lid q log
      (finish a (first_id lid pg) q' (log ++ [offset]))
| ends_panic offset lid q log pg q' :
    page_at net a offset = Some pg -> pg <> [] ->
    lastId a <> 0 ->
    scan_posts (lastId a) pg q = (PagePanic, q') ->
    scan_ends net a offset lid q log
      {| agent := a; queue := q'; fetched := log ++ [offset];
         outcome := RunPanic |}
| ends_next offset lid q log pg q' r :
    page_at net a offset = Some pg -> pg <> [] ->
    lastId a <> 0 ->
    scan_posts (lastId a) pg q = (PageDone, q') ->
    scan_ends net a (GoInt.add offset limit) (first_id lid pg) q'
              (log ++ [offset]) r ->
    scan_ends net a offset lid q log r.

(** The goroutine is writing the file [f]. *)
Definition copying_to (f : string) (t : Task) : Prop :=
  match t with
  | AtCopy _ fileName _ _ => fileName = f
  | _ => False
  end.

(** Goroutines that write have their file in the directory, and no two of
    them write the same file. *)
Definition writers_apart (sy : System) : Prop :=
  (forall i t f, sy.1 !! i = Some t -> copying_to f t ->
                 is_Some (files sy.2 !! f))
  /\ (forall i j t t' f,
         sy.1 !! i = Some t -> sy.1 !! j = Some t' ->
         copying_to f t -> copying_to f t' -> i = j).


(** * Properties *)

(** ** Machine integers *)

Lemma wrap_in_range z : GoInt.in_range z -> GoInt.wrap z = z.
Proof.
  unfold GoInt.in_range, GoInt.int_min, GoInt.int_max, GoInt.wrap.
  intros Hz. rewrite Z.mod_small; lia.
Qed.

Lemma add_limit offset :
  0 <= offset -> offset + limit <= GoInt.int_max ->
  GoInt.add offset limit = offset + limit.
Proof.
  intros H0 Hmax. unfold GoInt.add. apply wrap_in_range.
  unfold GoInt.in_range, GoInt.int_min, GoInt.int_max, limit in *. lia.
Qed.

(** ** The loop over one page *)

Lemma send_photos_variants photos q :
  Forall (fun photo => AltSizes photo <> []) photos ->
  send_photos photos q = (true, q ++ canonical_urls photos).
Proof.
  intros Hall. revert q.
  induction Hall as [|photo rest Hne _ IH]; intros q; simpl.
  - by rewrite app_nil_r.
  - destruct (AltSizes photo) as [|sz szs]; [done|].
    rewrite IH. by rewrite <- app_assoc.
Qed.

Lemma send_photos_no_variant photos1 photo photos2 q :
  Forall (fun photo => AltSizes photo <> []) photos1 ->
  AltSizes photo = [] ->
  send_photos (photos1 ++ photo :: photos2) q
  = (false, q ++ canonical_urls photos1).
Proof.
  intros Hall Hnil. revert q.
  induction Hall as [|ph rest Hne _ IH]; intros q; simpl.
  - rewrite Hnil. by rewrite app_nil_r.
  - destruct (AltSizes ph) as [|sz szs]; [done|].
    rewrite IH. by rewrite <- app_assoc.
Qed.

Lemma urls_of_app posts1 posts2 :
  urls_of (posts1 ++ posts2) = urls_of posts1 ++ urls_of posts2.
Proof. unfold urls_of. apply flat_map_app. Qed.

(** A page of new posts is sent whole and the loop goes on. *)
Lemma scan_posts_all_new W posts q :
  Forall (fun p => W < Id p /\ has_variants p) posts ->
  scan_posts W posts q = (PageDone, q ++ urls_of posts).
Proof.
  intros Hall. revert q.
  induction Hall as [|p rest [Hlt Hv] _ IH]; intros q; simpl.
  - by rewrite app_nil_r.
  - destruct (Z.eqb_spec W (Id p)); [lia|].
    destruct (Z.gtb_spec W (Id p)); [lia|].
    rewrite (send_photos_variants _ _ Hv), IH.
    by rewrite <- app_assoc.
Qed.

(** The loop leaves [OUTER] at the first post that is not new. *)
Lemma scan_posts_stop W news p olds q :
  Forall (fun p => W < Id p /\ has_variants p) news ->
  Id p <= W ->
  scan_posts W (news ++ p :: olds) q = (BreakOuter, q ++ urls_of news).
Proof.
  intros Hall Hle. revert q.
  induction Hall as [|p' rest [Hlt Hv] _ IH]; intros q; simpl.
  - rewrite app_nil_r.
    destruct (Z.eqb_spec W (Id p)); [done|].
    destruct (Z.gtb_spec W (Id p)); [done|lia].
  - destruct (Z.eqb_spec W (Id p')); [lia|].
    destruct (Z.gtb_spec W (Id p')); [lia|].
    rewrite (send_photos_variants _ _ Hv), IH.
    by rewrite <- app_assoc.
Qed.

(** ** Lists cut at the first element failing a test *)

Lemma take_while_app_all {A} (f : A -> bool) l1 l2 :
  forallb f l1 = true ->
  take_while f (l1 ++ l2) = l1 ++ take_while f l2.
Proof.
  induction l1 as [|x l1 IH]; simpl; [done|].
  intros [Hx Hl]%andb_prop. rewrite Hx. by rewrite IH.
Qed.

Lemma take_while_app_stop {A} (f : A -> bool) news p olds :
  forallb f news = true -> f p = false ->
  take_while f (news ++ p :: olds) = news.
Proof.
  induction news as [|x l1 IH]; simpl.
  - by intros _ ->.
  - intros [Hx Hl]%andb_prop Hp. rewrite Hx. by rewrite IH.
Qed.

Lemma forallb_false_split {A} (f : A -> bool) l :
  forallb f l = false ->
  exists news p olds,
    l = news ++ p :: olds /\ forallb f news = true /\ f p = false.
Proof.
  induction l as [|x l IH]; simpl; [done|].
  destruct (f x) eqn:Hx; simpl.
  - intros (news & p & olds & -> & Hn & Hp)%IH.
    exists (x :: news), p, olds. simpl. by rewrite Hx, Hn.
  - intros _. by exists [], x, l.
Qed.

Lemma take_while_prefix {A} (f : A -> bool) l :
  exists rest, l = take_while f l ++ rest.
Proof.
  induction l as [|x l [rest IH]]; simpl.
  - by exists [].
  - destruct (f x).
    + exists rest. simpl. by rewrite <- IH.
    + by exists (x :: l).
Qed.

Lemma take_while_all {A} (f : A -> bool) l :
  Forall (fun x => f x = true) (take_while f l).
Proof.
  induction l as [|x l IH]; simpl; [constructor|].
  destruct (f x) eqn:Hx; by constructor.
Qed.

(** On a list whose identifiers decrease, the new posts are a prefix. *)
Lemma filter_take_while_decreasing W posts :
  decreasing_ids posts ->
  List.filter (is_new W) posts = take_while (is_new W) posts.
Proof.
  unfold decreasing_ids.
  induction 1 as [|p l Hs IH Hall]; simpl; [done|].
  destruct (is_new W p) eqn:Hp; [by rewrite IH|].
  clear IH Hs. induction Hall as [|p' l' Hlt _ IH]; simpl; [done|].
  unfold is_new in *.
  destruct (Z.ltb_spec W (Id p)); [done|].
  destruct (Z.ltb_spec W (Id p')); [lia|done].
Qed.

(** ** One iteration of the [OUTER] loop *)

Section OuterLoop.

Variable net : Upstream.
Variable a : Agent.

Lemma page_at_Some offset pg :
  page_at net a offset = Some pg ->
  exists resp,
    Fetch net a limit offset = inr resp /\ Posts (Response resp) = pg.
Proof.
  unfold page_at. destruct (Fetch net a limit offset) as [e|resp]; [done|].
  intros [= <-]. by exists resp.
Qed.

Lemma page_at_None offset :
  page_at net a offset = None ->
  exists e, Fetch net a limit offset = inl e.
Proof.
  unfold page_at. destruct (Fetch net a limit offset) as [e|resp]; [|done].
  intros _. by exists e.
Qed.

(** The fetch fails: [return err]. *)
Lemma Run_loop_error fuel offset lid q log e :
  Fetch net a limit offset = inl e ->
  Run_loop (S fuel) net a offset lid q log
  = Some {| agent := a; queue := q; fetched := log ++ [offset];
            outcome := RunErr e |}.
Proof. intros H. simpl. by rewrite H. Qed.

(** An empty page: [break]. *)
Lemma Run_loop_empty fuel offset lid q log :
  page_at net a offset = Some [] ->
  Run_loop (S fuel) net a offset lid q log
  = Some (finish a lid q (log ++ [offset])).
Proof.
  intros (resp & Hf & Hp)%page_at_Some. simpl. by rewrite Hf, Hp.
Qed.

(** No watermark yet: [break] after the candidate is taken. *)
Lemma Run_loop_bootstrap fuel offset lid q log pg :
  lastId a = 0 ->
  page_at net a offset = Some pg ->
  Run_loop (S fuel) net a offset lid q log
  = Some (finish a (first_id lid pg) q (log ++ [offset])).
Proof.
  intros Ha (resp & Hf & Hp)%page_at_Some. simpl. rewrite Hf, Hp, Ha.
  by destruct pg.
Qed.

(** A page of new posts: the loop goes on with the next offset. *)
Lemma Run_loop_page_new fuel offset lid q log pg :
  lastId a <> 0 -> pg <> [] ->
  page_at net a offset = Some pg ->
  Forall (fun p => lastId a < Id p /\ has_variants p) pg ->
  Run_loop (S fuel) net a offset lid q log
  = Run_loop fuel net a (GoInt.add offset limit) (first_id lid pg)
             (q ++ urls_of pg) (log ++ [offset]).
Proof.
  intros Ha Hne (resp & Hf & Hp)%page_at_Some Hall.
  cbn [Run_loop]. rewrite Hf. cbv zeta. rewrite Hp.
  destruct pg as [|first rest]; [done|].
  destruct (Z.eqb_spec (lastId a) 0); [done|].
  rewrite (scan_posts_all_new _ _ _ Hall). reflexivity.
Qed.

(** A page with a post that is not new: [break OUTER] at that post. *)
Lemma Run_loop_page_stop fuel offset lid q log news p olds :
  lastId a <> 0 ->
  page_at net a offset = Some (news ++ p :: olds) ->
  Forall (fun p => lastId a < Id p /\ has_variants p) news ->
  Id p <= lastId a ->
  Run_loop (S fuel) net a offset lid q log
  = Some (finish a (first_id lid (news ++ p :: olds))
                 (q ++ urls_of news) (log ++ [offset])).
Proof.
  intros Ha (resp & Hf & Hp)%page_at_Some Hall Hle.
  cbn [Run_loop]. rewrite Hf. cbv zeta. rewrite Hp.
  destruct (news ++ p :: olds) as [|first rest] eqn:Hpg;
    [by destruct news|].
  destruct (Z.eqb_spec (lastId a) 0); [done|].
  rewrite <- Hpg at 1. rewrite (scan_posts_stop _ _ _ _ _ Hall Hle).
  reflexivity.
Qed.

End OuterLoop.

(** ** A whole scan with a watermark *)

Section Scan.

Variable net : Upstream.
Variable a : Agent.

Lemma serves_head offset pg pages :
  serves net a offset (pg :: pages) -> page_at net a offset = Some pg.
Proof.
  intros H. specialize (H 0%nat pg eq_refl).
  by replace (offset + limit * Z.of_nat 0) with offset in H by lia.
Qed.

Lemma serves_tail offset pg pages :
  serves net a offset (pg :: pages) ->
  serves net a (offset + limit) pages.
Proof.
  intros H k pg' Hk. specialize (H (S k) pg' Hk).
  by replace (offset + limit + limit * Z.of_nat k)
    with (offset + limit * Z.of_nat (S k)) by lia.
Qed.

Lemma forallb_is_new W pg :
  forallb (is_new W) pg = true -> Forall (fun p => W < Id p) pg.
Proof.
  rewrite forallb_forall, Forall_forall. intros H p Hp.
  specialize (H p). rewrite <- list_elem_of_In in H.
  specialize (H Hp). unfold is_new in H. lia.
Qed.

(** The scan sends the URLs of the posts before the first one that is not
    new, whatever comes after it, and requests no page beyond the one
    holding that post. *)
Lemma Run_loop_scan pages :
  forall offset lid q log extra,
    lastId a <> 0 ->
    Forall (fun pg => pg <> []) pages ->
    serves net a offset pages ->
    Exists (fun p => Id p <= lastId a) (concat pages)
    \/ page_at net a (offset + limit * Z.of_nat (length pages)) = Some [] ->
    Forall has_variants (take_while (is_new (lastId a)) (concat pages)) ->
    0 <= offset ->
    offset + limit * Z.of_nat (length pages) <= GoInt.int_max ->
    Run_loop (fetch_count (lastId a) pages + extra) net a offset lid q log
    = Some (finish a
              (candidate lid (take (fetch_count (lastId a) pages) pages))
              (q ++ urls_of (take_while (is_new (lastId a)) (concat pages)))
              (log ++ offsets offset (fetch_count (lastId a) pages))).
Proof.
  induction pages as [|pg pages IH];
    intros offset lid q log extra Ha Hne Hserve Hend Hvar Hoff Hmax.
  - destruct Hend as [Hex|Hend]; [by apply Exists_nil in Hex|].
    cbn [length] in Hend.
    replace (offset + limit * Z.of_nat 0) with offset in Hend by lia.
    cbn [fetch_count Nat.add take concat take_while offsets]. unfold candidate.
    cbn [fold_left urls_of flat_map]. rewrite app_nil_r.
    by apply Run_loop_empty.
  - apply Forall_cons in Hne as [Hpg Hne].
    pose proof (serves_head _ _ _ Hserve) as Hhead.
    pose proof (serves_tail _ _ _ Hserve) as Htail.
    simpl concat in *. cbn [fetch_count length] in *.
    destruct (forallb (is_new (lastId a)) pg) eqn:Hnew.
    + rewrite (take_while_app_all _ _ _ Hnew) in *.
      apply Forall_app in Hvar as [Hvar1 Hvar2].
      pose proof (forallb_is_new _ _ Hnew) as Hlt.
      assert (Hall : Forall (fun p => lastId a < Id p /\ has_variants p) pg).
      { rewrite Forall_forall in *. intros p Hp. split; auto. }
      cbn [Nat.add take offsets]. unfold candidate. cbn [fold_left].
      rewrite (Run_loop_page_new _ _ _ _ _ _ _ _ Ha Hpg Hhead Hall).
      assert (Hlim : 0 < limit) by (unfold limit; lia).
      rewrite add_limit by nia.
      rewrite IH; try done; try nia.
      * rewrite urls_of_app, <- !app_assoc. reflexivity.
      * destruct Hend as [Hex|Hend].
        -- left. apply Exists_app in Hex as [Hex|Hex]; [|done].
           apply Exists_exists in Hex as (p & Hp & Hle).
           rewrite Forall_forall in Hlt. specialize (Hlt p Hp). lia.
        -- right. rewrite <- Hend. f_equal. lia.
    + destruct (forallb_false_split _ _ Hnew)
        as (news & p & olds & -> & Hnews & Hp).
      rewrite <- app_assoc in *. simpl app in *.
      rewrite (take_while_app_stop _ _ _ _ Hnews Hp) in *.
      pose proof (forallb_is_new _ _ Hnews) as Hlt.
      assert (Hall : Forall (fun p => lastId a < Id p /\ has_variants p)
                            news).
      { rewrite Forall_forall in *. intros p' Hp'. split; auto. }
      assert (Hle : Id p <= lastId a) by (unfold is_new in Hp; lia).
      cbn [Nat.add take offsets]. unfold candidate. cbn [fold_left take].
      rewrite (Run_loop_page_stop _ _ _ _ _ _ _ _ _ _ Ha Hhead Hall Hle).
      reflexivity.
Qed.

End Scan.

Lemma decreasing_olds W posts :
  decreasing_ids posts ->
  exists olds,
    posts = List.filter (is_new W) posts ++ olds
    /\ Forall (fun p => Id p <= W) olds.
Proof.
  unfold decreasing_ids.
  induction 1 as [|p l Hs (olds & IH & Holds) Hall]; simpl.
  - by exists [].
  - destruct (is_new W p) eqn:Hp.
    + exists olds. split; [simpl; by rewrite <- IH | done].
    + assert (Hle : Id p <= W) by (unfold is_new in Hp; lia).
      assert (Hl : Forall (fun p' => Id p' <= W) l).
      { eapply Forall_impl; [exact Hall|]. simpl. intros p' Hlt. lia. }
      exists (p :: l). split; [|by constructor].
      replace (List.filter (is_new W) l) with (@nil Post); [done|].
      clear -Hl. induction Hl as [|p' l' Hp' _ IH]; simpl; [done|].
      unfold is_new at 1. destruct (Z.ltb_spec W (Id p')); [lia|done].
Qed.

Lemma candidate_nonzero_finish a lid q log :
  lastId a <> 0 -> lastId (agent (finish a lid q log)) <> 0.
Proof.
  intros Ha. unfold finish. simpl.
  destruct (Z.eqb_spec lid 0); simpl; [done|].
  destruct (Z.eqb_spec (lastId a) lid); simpl; done.
Qed.

(** ** Incremental scans *)

(** C1.  With a watermark present and pages whose identifiers strictly
    decrease within and across pages, the scan returns successfully having
    sent exactly the canonical URLs of the posts above the watermark, in
    page, post and photo order; those posts are a prefix of the feed, every
    post after them is at or below the watermark, and no page is requested
    beyond the one holding the first such post (or beyond the empty page
    that ends the feed). *)
Theorem incremental_scan_sends_new_posts net a q pages :
  lastId a <> 0 ->
  Forall (fun pg => pg <> []) pages ->
  serves net a 0 pages ->
  Exists (fun p => Id p <= lastId a) (concat pages)
  \/ page_at net a (limit * Z.of_nat (length pages)) = Some [] ->
  decreasing_ids (concat pages) ->
  Forall (fun p => lastId a < Id p -> has_variants p) (concat pages) ->
  limit * Z.of_nat (length pages) <= GoInt.int_max ->
  exists r olds,
    (forall extra,
        Run (fetch_count (lastId a) pages + extra) net a q = Some r) /\
    outcome r = RunOk /\
    queue r = q ++ urls_of (List.filter (is_new (lastId a)) (concat pages)) /\
    concat pages = List.filter (is_new (lastId a)) (concat pages) ++ olds /\
    Forall (fun p => Id p <= lastId a) olds /\
    fetched r = offsets 0 (fetch_count (lastId a) pages).
Proof.
  intros Ha Hne Hserve Hend Hdec Hvar Hmax.
  destruct (decreasing_olds (lastId a) _ Hdec) as (olds & Hsplit & Holds).
  rewrite (filter_take_while_decreasing _ _ Hdec) in *.
  eexists _, olds. split; [|split; [|split; [|split; [|split]]]].
  - intros extra. unfold Run. apply Run_loop_scan; try done.
    rewrite Forall_forall in *. intros p Hp. apply Hvar.
    + rewrite Hsplit. apply list_elem_of_In, in_or_app. left.
      by apply list_elem_of_In.
    + pose proof (take_while_all (is_new (lastId a)) (concat pages)) as Hall.
      rewrite Forall_forall in Hall. specialize (Hall p Hp).
      unfold is_new in Hall. lia.
  - reflexivity.
  - reflexivity.
  - exact Hsplit.
  - exact Holds.
  - reflexivity.
Qed.

Lemma post_has_variants i us : has_variants (post i us).
Proof.
  unfold has_variants, post. simpl.
  induction us as [|u us IH]; simpl; by constructor.
Qed.

(** Discharges [serves] for a concrete upstream and a concrete list of
    pages, one page at a time. *)
Ltac served :=
  let k := fresh "k" in
  let pg := fresh "pg" in
  let H := fresh "H" in
  intros k pg H;
  repeat (first
            [ discriminate H
            | destruct k as [|k];
              [ injection H as <-; vm_compute; reflexivity
              | simpl in H ] ]).

Lemma incremental_scan_two_pages :
  exists r olds,
    (forall extra,
        Run (fetch_count 105 [page_newer; page_next] + extra)
            (upstream_of [ok_page page_newer; ok_page page_next])
            (blog 105) [] = Some r) /\
    outcome r = RunOk /\
    queue r = [] ++ urls_of (List.filter (is_new 105)
                               (concat [page_newer; page_next])) /\
    concat [page_newer; page_next]
    = List.filter (is_new 105) (concat [page_newer; page_next]) ++ olds /\
    Forall (fun p => Id p <= 105) olds /\
    fetched r = offsets 0 (fetch_count 105 [page_newer; page_next]).
Proof.
  apply (incremental_scan_sends_new_posts
           (upstream_of [ok_page page_newer; ok_page page_next])
           (blog 105) [] [page_newer; page_next]).
  - simpl. lia.
  - repeat constructor; discriminate.
  - served.
  - left. simpl. do 4 apply Exists_cons_tl. apply Exists_cons_hd.
    simpl. lia.
  - unfold decreasing_ids. simpl. repeat constructor; simpl; lia.
  - simpl. repeat (constructor; [intros _; apply post_has_variants|]).
    constructor.
  - vm_compute. discriminate.
Defined.

(** The two ticks of the reference scenario: a first scan without
    watermark over posts 105 and 103, then a scan with watermark 105 over
    posts 110, 108 and 105. *)
Example scenario_first_tick :
  Run 1 (upstream_of [ok_page page_first]) (blog 0) []
  = Some {| agent := blog 105; queue := []; fetched := [0];
            outcome := RunOk |}.
Proof. reflexivity. Qed.

Example scenario_second_tick :
  Run 1 (upstream_of [ok_page page_next]) (blog 105) []
  = Some {| agent := blog 110;
            queue := ["https://m.example.com/a/p110a.jpg";
                      "https://m.example.com/a/p110b.jpg";
                      "https://m.example.com/a/p108.jpg"]%string;
            fetched := [0]; outcome := RunOk |}.
Proof. reflexivity. Qed.

(** ** The ordering guard *)

Lemma fetch_count_stop W pages last :
  Forall (fun pg => forallb (is_new W) pg = true) pages ->
  forallb (is_new W) last = false ->
  fetch_count W (pages ++ [last]) = S (length pages).
Proof.
  intros Hall Hlast.
  induction Hall as [|pg pages Hpg _ IH]; simpl.
  - by rewrite Hlast.
  - by rewrite Hpg, IH.
Qed.

Lemma forallb_concat {A} (f : A -> bool) (ls : list (list A)) :
  Forall (fun l => forallb f l = true) ls ->
  forallb f (concat ls) = true.
Proof.
  induction 1 as [|l ls Hl _ IH]; simpl; [done|].
  rewrite forallb_app. by rewrite Hl, IH.
Qed.

Lemma is_new_forallb W posts :
  Forall (fun p => W < Id p) posts -> forallb (is_new W) posts = true.
Proof.
  induction 1 as [|p l Hp _ IH]; simpl; [done|].
  rewrite IH. unfold is_new. destruct (Z.ltb_spec W (Id p)); [done|lia].
Qed.

(** C7.  With a watermark present, a scan that reaches a post whose
    identifier is strictly below the watermark stops at that post: it
    returns successfully, the queue holds the URLs of the posts before it
    and nothing of what follows it on the page, no further page is
    requested, and the tick does not reset the watermark. *)
Theorem ordering_guard_stops_cleanly net a q pages news p olds :
  lastId a <> 0 ->
  Forall (fun pg => pg <> []) pages ->
  serves net a 0 (pages ++ [news ++ p :: olds]) ->
  Forall (fun pg => Forall (fun p => lastId a < Id p /\ has_variants p) pg)
         (pages ++ [news]) ->
  Id p < lastId a ->
  limit * Z.of_nat (S (length pages)) <= GoInt.int_max ->
  exists r,
    (forall extra, Run (S (length pages) + extra) net a q = Some r) /\
    (forall extra, agent_tick (S (length pages) + extra) net a q = Some r) /\
    outcome r = RunOk /\
    queue r = q ++ urls_of (concat pages ++ news) /\
    fetched r = offsets 0 (S (length pages)) /\
    lastId (agent r) <> 0.
Proof.
  intros Ha Hne Hserve Hall Hlt Hmax.
  apply Forall_app in Hall as [Hpages Hnews].
  rewrite Forall_singleton in Hnews.
  assert (Hnewpages : Forall (fun pg => forallb (is_new (lastId a)) pg = true) pages).
  { eapply Forall_impl; [exact Hpages|]. simpl. intros pg Hpg.
    apply is_new_forallb. eapply Forall_impl; [exact Hpg|].
    simpl. by intros ? [? _]. }
  assert (Hnewnews : forallb (is_new (lastId a)) news = true).
  { apply is_new_forallb. eapply Forall_impl; [exact Hnews|].
    simpl. by intros ? [? _]. }
  assert (Hp : is_new (lastId a) p = false).
  { unfold is_new. destruct (Z.ltb_spec (lastId a) (Id p)); [lia|done]. }
  assert (Hlast : forallb (is_new (lastId a)) (news ++ p :: olds) = false).
  { rewrite forallb_app. simpl. rewrite Hp. by rewrite andb_false_r. }
  pose proof (fetch_count_stop (lastId a) pages _ Hnewpages Hlast) as Hcount.
  assert (Htw : take_while (is_new (lastId a)) (concat (pages ++ [news ++ p :: olds]))
                = concat pages ++ news).
  { rewrite concat_app. simpl. rewrite app_nil_r.
    rewrite take_while_app_all by by apply forallb_concat.
    by rewrite take_while_app_stop. }
  assert (Hrun : forall extra,
             Run (S (length pages) + extra) net a q
             = Some (finish a
                       (candidate 0 (take (S (length pages))
                                          (pages ++ [news ++ p :: olds])))
                       (q ++ urls_of (concat pages ++ news))
                       (offsets 0 (S (length pages))))).
  { intros extra. unfold Run. rewrite <- Hcount, <- Htw.
    apply Run_loop_scan; try done.
    - apply Forall_app. split; [done|].
      apply Forall_singleton. by destruct news.
    - left. rewrite concat_app. apply Exists_app. right. simpl.
      apply Exists_app. left. apply Exists_app. right.
      apply Exists_cons_hd. lia.
    - rewrite Htw. apply Forall_app. split.
      + apply Forall_concat. eapply Forall_impl; [exact Hpages|].
        simpl. intros pg Hpg. eapply Forall_impl; [exact Hpg|].
        simpl. by intros ? [_ ?].
      + eapply Forall_impl; [exact Hnews|]. simpl. by intros ? [_ ?].
    - rewrite length_app. simpl length.
      unfold limit, GoInt.int_max in *. lia. }
  eexists. split; [exact Hrun|]. split; [|split; [|split; [|split]]].
  - intros extra. unfold agent_tick. by rewrite Hrun.
  - reflexivity.
  - reflexivity.
  - reflexivity.
  - by apply candidate_nonzero_finish.
Qed.

Lemma ordering_guard_on_disordered_page :
  exists r,
    (forall extra,
        Run (S (length [page_newer]) + extra)
            (upstream_of [ok_page page_newer; ok_page page_disordered])
            (blog 100) [] = Some r) /\
    (forall extra,
        agent_tick (S (length [page_newer]) + extra)
            (upstream_of [ok_page page_newer; ok_page page_disordered])
            (blog 100) [] = Some r) /\
    outcome r = RunOk /\
    queue r
    = [] ++ urls_of (concat [page_newer]
                     ++ [post 110 ["https://m.example.com/a/p110a.jpg"]]) /\
    fetched r = offsets 0 (S (length [page_newer])) /\
    lastId (agent r) <> 0.
Proof.
  apply (ordering_guard_stops_cleanly
           (upstream_of [ok_page page_newer; ok_page page_disordered])
           (blog 100) [] [page_newer]
           [post 110 ["https://m.example.com/a/p110a.jpg"]]
           (post 90 ["https://m.example.com/a/p90.jpg"])
           [post 120 ["https://m.example.com/a/p120.jpg"]]).
  - simpl. lia.
  - repeat constructor; discriminate.
  - served.
  - repeat (constructor;
            [repeat (constructor;
                     [split; [simpl; lia|apply post_has_variants]|]);
             constructor|]).
    constructor.
  - simpl. lia.
  - vm_compute. discriminate.
Defined.

(** ** Scans without a watermark, and empty feeds *)

(** C4.  Without a watermark a scan sends nothing and requests exactly one
    page, the one at offset 0; when that page is served with at least one
    post, the scan succeeds and the watermark becomes the identifier of its
    first post. *)
Theorem bootstrap_scan_sets_watermark net a q fuel :
  lastId a = 0 ->
  exists r,
    Run (S fuel) net a q = Some r /\
    queue r = q /\
    fetched r = [0] /\
    forall first rest,
      page_at net a 0 = Some (first :: rest) ->
      outcome r = RunOk /\ lastId (agent r) = Id first.
Proof.
  intros Ha. unfold Run.
  destruct (page_at net a 0) as [pg|] eqn:Hpage.
  - rewrite (Run_loop_bootstrap _ _ _ _ _ _ _ _ Ha Hpage).
    eexists. split; [reflexivity|]. split; [reflexivity|].
    split; [reflexivity|].
    intros first rest [= ->]. split; [reflexivity|].
    unfold finish. simpl. rewrite Ha.
    destruct (Z.eqb_spec (Id first) 0), (Z.eqb_spec 0 (Id first));
      cbn [negb andb set_lastId lastId]; congruence.
  - destruct (page_at_None _ _ _ Hpage) as [e He].
    rewrite (Run_loop_error _ _ _ _ _ _ _ _ He).
    eexists. split; [reflexivity|]. split; [reflexivity|].
    split; [reflexivity|]. intros first rest [=].
Qed.

Lemma bootstrap_scan_on_first_page :
  page_at (upstream_of [ok_page page_first]) (blog 0) 0 = Some page_first /\
  exists r,
    Run 1 (upstream_of [ok_page page_first]) (blog 0) [] = Some r /\
    queue r = [] /\
    fetched r = [0] /\
    forall first rest,
      page_at (upstream_of [ok_page page_first]) (blog 0) 0
      = Some (first :: rest) ->
      outcome r = RunOk /\ lastId (agent r) = Id first.
Proof.
  split; [reflexivity|].
  apply (bootstrap_scan_sets_watermark
           (upstream_of [ok_page page_first]) (blog 0) [] 0).
  reflexivity.
Defined.

(** C9.  When the page at offset 0 is served empty, the scan succeeds after
    that single request, sends nothing and returns the agent as it was: a
    watermark that was absent stays absent, one that was present keeps its
    value. *)
Theorem empty_feed_keeps_watermark net a q fuel :
  page_at net a 0 = Some [] ->
  Run (S fuel) net a q
  = Some {| agent := a; queue := q; fetched := [0]; outcome := RunOk |}.
Proof.
  intros Hpage. unfold Run. by rewrite (Run_loop_empty _ _ _ _ _ _ _ Hpage).
Qed.

Lemma empty_feed_with_and_without_watermark :
  Run 1 (upstream_of []) (blog 105) []
  = Some {| agent := blog 105; queue := []; fetched := [0];
            outcome := RunOk |}
  /\ Run 1 (upstream_of []) (blog 0) []
     = Some {| agent := blog 0; queue := []; fetched := [0];
               outcome := RunOk |}.
Proof.
  split.
  - apply (empty_feed_keeps_watermark (upstream_of []) (blog 105) [] 0).
    reflexivity.
  - apply (empty_feed_keeps_watermark (upstream_of []) (blog 0) [] 0).
    reflexivity.
Defined.

(** ** Failed fetches *)

Section FailedFetch.

Variable net : Upstream.
Variable a : Agent.

(** Pages of new posts only: the loop goes through all of them. *)
Lemma Run_loop_new_pages pages :
  forall offset lid q log fuel,
    pages = [] \/ lastId a <> 0 ->
    Forall (fun pg => pg <> []) pages ->
    serves net a offset pages ->
    Forall (fun pg => Forall (fun p => lastId a < Id p /\ has_variants p) pg)
           pages ->
    0 <= offset ->
    offset + limit * Z.of_nat (length pages) <= GoInt.int_max ->
    Run_loop (length pages + fuel) net a offset lid q log
    = Run_loop fuel net a (offset + limit * Z.of_nat (length pages))
               (candidate lid pages) (q ++ urls_of (concat pages))
               (log ++ offsets offset (length pages)).
Proof.
  induction pages as [|pg pages IH];
    intros offset lid q log fuel Ha Hne Hserve Hall Hoff Hmax.
  - cbn [length Nat.add concat offsets]. unfold candidate, urls_of.
    cbn [fold_left flat_map]. rewrite !app_nil_r. f_equal. lia.
  - destruct Ha as [Ha|Ha]; [done|].
    apply Forall_cons in Hne as [Hpg Hne].
    apply Forall_cons in Hall as [Hnew Hall].
    pose proof (serves_head _ _ _ _ _ Hserve) as Hhead.
    pose proof (serves_tail _ _ _ _ _ Hserve) as Htail.
    cbn [length Nat.add concat offsets] in *. unfold candidate.
    cbn [fold_left].
    rewrite (Run_loop_page_new _ _ _ _ _ _ _ _ Ha Hpg Hhead Hnew).
    assert (Hlim : 0 < limit) by (unfold limit; lia).
    rewrite add_limit by nia.
    rewrite (IH (offset + limit) _ _ _ fuel (or_intror Ha) Hne Htail Hall)
      by nia.
    rewrite urls_of_app, <- !app_assoc. cbn [app].
    f_equal. lia.
Qed.

(** A request that failed is the last one of its scan, and the scan
    returned its error with the agent untouched. *)
Lemma Run_loop_failed_fetch fuel :
  forall offset lid q log r o e,
    (forall o', o' ∈ log -> exists resp, Fetch net a limit o' = inr resp) ->
    Run_loop fuel net a offset lid q log = Some r ->
    o ∈ fetched r ->
    Fetch net a limit o = inl e ->
    outcome r = RunErr e /\ agent r = a.
Proof.
  induction fuel as [|fuel IH]; intros offset lid q log r o e Hlog;
    [done|].
  assert (Hnever : forall resp,
             Fetch net a limit offset = inr resp ->
             o ∈ log ++ [offset] -> Fetch net a limit o = inl e -> False).
  { intros resp Hresp [Ho|Ho%list_elem_of_singleton]%elem_of_app Hfail.
    - destruct (Hlog o Ho) as [resp' Hresp']. congruence.
    - subst o. congruence. }
  cbn [Run_loop]. destruct (Fetch net a limit offset) as [err|resp] eqn:Hf.
  - intros [= <-]. cbn [fetched outcome agent].
    intros [Ho|Ho%list_elem_of_singleton]%elem_of_app Hfail.
    + destruct (Hlog o Ho) as [resp' Hresp']. congruence.
    + subst o. split; [congruence|done].
  - cbv zeta. destruct (Posts (Response resp)) as [|first rest].
    { intros [= <-] Ho Hfail. destruct (Hnever resp eq_refl Ho Hfail). }
    destruct (lastId a =? 0).
    { intros [= <-] Ho Hfail. destruct (Hnever resp eq_refl Ho Hfail). }
    destruct (scan_posts (lastId a) (first :: rest) q) as [[| |] q'].
    + apply IH. intros o' [Ho'|Ho'%list_elem_of_singleton]%elem_of_app.
      * by apply Hlog.
      * subst o'. by exists resp.
    + intros [= <-] Ho Hfail. destruct (Hnever resp eq_refl Ho Hfail).
    + intros [= <-] Ho Hfail. destruct (Hnever resp eq_refl Ho Hfail).
Qed.

End FailedFetch.

Lemma offsets_snoc n :
  forall offset,
    offsets offset (S n) = offsets offset n ++ [offset + limit * Z.of_nat n].
Proof.
  induction n as [|n IH]; intros offset.
  - simpl. f_equal. lia.
  - change (offsets offset (S (S n)))
      with (offset :: offsets (offset + limit) (S n)).
    rewrite IH. simpl. do 2 f_equal. f_equal. lia.
Qed.

(** C6.  A scan whose page fetch fails returns that error and leaves the
    agent, hence its watermark, as it was.  First part: when the pages
    before the failing request hold only new posts, the scan does reach
    the failing request and returns its error, for any bound on the number
    of iterations that lets it get there.  Second part: whatever the
    upstream, a request of a returned scan that failed is the one the scan
    ended on, and the returned agent is the initial one. *)
Theorem failed_fetch_leaves_watermark net a q :
  (forall pages e extra,
      pages = [] \/ lastId a <> 0 ->
      Forall (fun pg => pg <> []) pages ->
      serves net a 0 pages ->
      Forall (fun pg =>
                Forall (fun p => lastId a < Id p /\ has_variants p) pg)
             pages ->
      Fetch net a limit (limit * Z.of_nat (length pages)) = inl e ->
      limit * Z.of_nat (length pages) <= GoInt.int_max ->
      Run (S (length pages) + extra) net a q
      = Some {| agent := a; queue := q ++ urls_of (concat pages);
                fetched := offsets 0 (S (length pages));
                outcome := RunErr e |})
  /\ (forall fuel r offset e,
         Run fuel net a q = Some r ->
         offset ∈ fetched r ->
         Fetch net a limit offset = inl e ->
         outcome r = RunErr e /\ agent r = a /\ lastId (agent r) = lastId a).
Proof.
  split.
  - intros pages e extra Ha Hne Hserve Hall Hfail Hmax. unfold Run.
    replace (S (length pages) + extra)%nat
      with (length pages + S extra)%nat by lia.
    rewrite (Run_loop_new_pages net a pages 0 0 q [] (S extra)
               Ha Hne Hserve Hall) by lia.
    rewrite (Run_loop_error _ _ _ _ _ _ _ _ Hfail).
    rewrite offsets_snoc. reflexivity.
  - intros fuel r offset e Hrun Hin Hfail.
    destruct (Run_loop_failed_fetch net a fuel 0 0 q [] r offset e)
      as [Hout Hag]; try done.
    + intros o' Ho'. by apply elem_of_nil in Ho'.
    + by rewrite Hag.
Qed.

Lemma failed_fetch_on_second_page :
  Run 2 (upstream_of [ok_page page_newer; GetFails "timeout"]) (blog 100) []
  = Some {| agent := blog 100;
            queue := [] ++ urls_of (concat [page_newer]);
            fetched := offsets 0 2;
            outcome := RunErr "timeout" |}.
Proof.
  apply (proj1 (failed_fetch_leaves_watermark
                  (upstream_of [ok_page page_newer; GetFails "timeout"])
                  (blog 100) [])
               [page_newer] "timeout"%string 0%nat).
  - right. simpl. lia.
  - repeat constructor; discriminate.
  - served.
  - repeat (constructor;
            [repeat (constructor;
                     [split; [simpl; lia|apply post_has_variants]|]);
             constructor|]).
    constructor.
  - reflexivity.
  - vm_compute. discriminate.
Defined.

(** ** The tick *)

(** C5.  When the scan of a tick returns an error, the tick ends with the
    agent's watermark at 0, the value of a feed never synced, whatever it
    was before. *)
Theorem failed_scan_resets_watermark fuel net a q r e :
  Run fuel net a q = Some r ->
  outcome r = RunErr e ->
  exists r',
    agent_tick fuel net a q = Some r' /\
    lastId (agent r') = 0 /\
    queue r' = queue r /\
    outcome r' = RunErr e.
Proof.
  intros Hrun Hout. unfold agent_tick. rewrite Hrun, Hout.
  eexists. split; [reflexivity|]. by cbn.
Qed.

Lemma failed_scan_resets_watermark_105 :
  exists r',
    agent_tick 1 (upstream_of [GetFails "timeout"]) (blog 105) [] = Some r' /\
    lastId (agent r') = 0 /\
    queue r' = queue {| agent := blog 105; queue := []; fetched := [0];
                        outcome := RunErr "timeout" |} /\
    outcome r' = RunErr "timeout".
Proof.
  apply (failed_scan_resets_watermark 1 (upstream_of [GetFails "timeout"])
           (blog 105) []
           {| agent := blog 105; queue := []; fetched := [0];
              outcome := RunErr "timeout" |} "timeout"%string).
  - reflexivity.
  - reflexivity.
Defined.

(** ** A photo without variants *)

Lemma scan_posts_no_variant W news p olds photos1 photo photos2 q :
  Forall (fun p => W < Id p /\ has_variants p) news ->
  W < Id p ->
  Photos p = photos1 ++ photo :: photos2 ->
  Forall (fun photo => AltSizes photo <> []) photos1 ->
  AltSizes photo = [] ->
  scan_posts W (news ++ p :: olds) q
  = (PagePanic, q ++ urls_of news ++ canonical_urls photos1).
Proof.
  intros Hall Hlt Hphotos Hvar Hnil. revert q.
  induction Hall as [|p' rest [Hlt' Hv] _ IH]; intros q; simpl.
  - destruct (Z.eqb_spec W (Id p)); [lia|].
    destruct (Z.gtb_spec W (Id p)); [lia|].
    rewrite Hphotos. by rewrite (send_photos_no_variant _ _ _ _ Hvar Hnil).
  - destruct (Z.eqb_spec W (Id p')); [lia|].
    destruct (Z.gtb_spec W (Id p')); [lia|].
    rewrite (send_photos_variants _ _ Hv), IH.
    by rewrite <- !app_assoc.
Qed.

(** C3 (what the code does).  [Fetch] accepts a page in which a photo lists
    no variant: the answer decodes and its status is 200.  When the scan
    reaches the post of that photo, indexing [AltSizes[0]] panics: the
    scan returns neither [nil] nor an error. *)
Theorem empty_variant_list_panics net a q fuel news p olds
    photos1 photo photos2 :
  lastId a <> 0 ->
  page_at net a 0 = Some (news ++ p :: olds) ->
  Forall (fun p => lastId a < Id p /\ has_variants p) news ->
  lastId a < Id p ->
  Photos p = photos1 ++ photo :: photos2 ->
  Forall (fun photo => AltSizes photo <> []) photos1 ->
  AltSizes photo = [] ->
  (exists resp,
      Fetch net a limit 0 = inr resp
      /\ Posts (Response resp) = news ++ p :: olds)
  /\ Run (S fuel) net a q
     = Some {| agent := a;
               queue := q ++ urls_of news ++ canonical_urls photos1;
               fetched := [0];
               outcome := RunPanic |}.
Proof.
  intros Ha Hpage Hall Hlt Hphotos Hvar Hnil.
  destruct (page_at_Some _ _ _ _ Hpage) as (resp & Hf & Hp).
  split; [by exists resp|].
  unfold Run. cbn [Run_loop]. rewrite Hf. cbv zeta. rewrite Hp.
  destruct (news ++ p :: olds) as [|first rest] eqn:Hpg;
    [by destruct news|].
  destruct (Z.eqb_spec (lastId a) 0); [done|].
  rewrite <- Hpg.
  rewrite (scan_posts_no_variant _ _ _ _ _ _ _ _ Hall Hlt Hphotos Hvar Hnil).
  reflexivity.
Qed.

Lemma empty_variant_list_panics_on_post_110 :
  (exists resp,
      Fetch (upstream_of [ok_page page_no_variant]) (blog 105) limit 0
      = inr resp
      /\ Posts (Response resp) = page_no_variant)
  /\ Run 1 (upstream_of [ok_page page_no_variant]) (blog 105) []
     = Some {| agent := blog 105; queue := []; fetched := [0];
               outcome := RunPanic |}.
Proof.
  apply (empty_variant_list_panics
           (upstream_of [ok_page page_no_variant]) (blog 105) [] 0
           [] {| Id := 110; Photos := [ {| AltSizes := [] |} ] |} []
           [] {| AltSizes := [] |} []).
  - simpl. lia.
  - reflexivity.
  - constructor.
  - simpl. lia.
  - reflexivity.
  - constructor.
  - reflexivity.
Defined.

(** ** Downloads *)

(** The reference scenario: a first download creates the file, a second
    one of the same URL requests it again and skips. *)
Example scenario_save_twice :
  let '(w1, r1) := Save simple_join env_up out_dir url_abc empty_world in
  let '(w2, r2) := Save simple_join env_up out_dir url_abc w1 in
  r1 = None /\ r2 = None
  /\ files w1 !! "/out/abc.jpg"%string = Some (copied body_abc)
  /\ files w2 = files w1
  /\ requests w2 = [url_abc; url_abc]
  /\ logs w2
     = ["[saver] saved https://x.example.com/img/abc.jpg to /out/abc.jpg";
        "[saver] /out/abc.jpg is exists. so skip it."]%string.
Proof. vm_compute. repeat split; reflexivity. Qed.

Section SaverProps.

Variable filepath_Join : string -> string -> string.

(** The file is there: the request is made all the same, then the open
    reports "file exists" and the call skips. *)
Lemma Save_existing env s url w c :
  files w !! file_name filepath_Join s url = Some c ->
  Save filepath_Join env s url w
  = match web env (length (requests w)) url with
    | GetError e => (with_request w url, Some e)
    | GetBody _ =>
        (saver_Log (with_request w url)
           (file_name filepath_Join s url ++ " is exists. so skip it."),
         None)
    end.
Proof.
  intros Hc. unfold Save.
  destruct (web env (length (requests w)) url) as [e|b]; [done|].
  unfold OpenFile_excl. cbn [files with_request]. by rewrite Hc.
Qed.

(** The file is not there and can be created: it receives what [io.Copy]
    moves. *)
Lemma Save_new env s url w b :
  files w !! file_name filepath_Join s url = None ->
  web env (length (requests w)) url = GetBody b ->
  open_fault env (file_name filepath_Join s url) = None ->
  Save filepath_Join env s url w
  = let w' := with_files (with_request w url)
                (<[file_name filepath_Join s url := copied b]> (files w)) in
    match copy_err b with
    | Some e => (w', Some e)
    | None =>
        (saver_Log w'
           ("saved " ++ url ++ " to " ++ file_name filepath_Join s url),
         None)
    end.
Proof.
  intros Hnone Hweb Hfault. unfold Save. rewrite Hweb.
  unfold OpenFile_excl. cbn [files with_request]. rewrite Hnone, Hfault.
  unfold with_files. cbn [files requests logs].
  by rewrite insert_insert_eq.
Qed.

(** A call never touches a file that was there before it. *)
Lemma Save_preserves env s url w f c :
  files w !! f = Some c ->
  files (Save filepath_Join env s url w).1 !! f = Some c.
Proof.
  intros Hc. unfold Save.
  destruct (web env (length (requests w)) url) as [e|b]; [done|].
  unfold OpenFile_excl. cbn [files with_request].
  destruct (files w !! file_name filepath_Join s url) eqn:Hname.
  - by cbn.
  - destruct (open_fault env (file_name filepath_Join s url)) as [e|].
    + by destruct (String.eqb e file_exists_msg).
    + assert (file_name filepath_Join s url <> f) by congruence.
      destruct (copy_err b); cbn [fst with_files files saver_Log];
        by rewrite !lookup_insert_ne.
Qed.

Lemma Save_all_preserves env s urls :
  forall w f c,
    files w !! f = Some c ->
    files (Save_all filepath_Join env s urls w).1 !! f = Some c.
Proof.
  induction urls as [|url urls IH]; intros w f c Hc; [done|].
  cbn [Save_all].
  pose proof (Save_preserves env s url w f c Hc) as H1.
  destruct (Save filepath_Join env s url w) as [w1 r].
  specialize (IH w1 f c H1).
  by destruct (Save_all filepath_Join env s urls w1) as [w2 rs].
Qed.

(** One step of a goroutine keeps a file that no goroutine is writing. *)
Lemma task_step_preserves env s t w f c :
  files w !! f = Some c ->
  not_copying_to f t ->
  files (task_step filepath_Join env s t w).2 !! f = Some c
  /\ not_copying_to f (task_step filepath_Join env s t w).1.
Proof.
  intros Hc Ht. destruct t as [url|url b|url fileName rest cerr|r].
  - cbn [task_step].
    by destruct (web env (length (requests w)) url).
  - cbn [task_step]. unfold OpenFile_excl.
    destruct (files w !! file_name filepath_Join s url) eqn:Hname.
    + by cbn.
    + destruct (open_fault env (file_name filepath_Join s url)) as [e|].
      * by destruct (String.eqb e file_exists_msg).
      * assert (file_name filepath_Join s url <> f) by congruence.
        cbn. by rewrite lookup_insert_ne.
  - cbn in Ht. destruct rest as [|x rest].
    + by destruct cerr.
    + cbn. by rewrite lookup_insert_ne.
  - done.
Qed.

Lemma sys_step_preserves env s ev ts w f c :
  files w !! f = Some c ->
  Forall (not_copying_to f) ts ->
  files (sys_step filepath_Join env s ev (ts, w)).2 !! f = Some c
  /\ Forall (not_copying_to f) (sys_step filepath_Join env s ev (ts, w)).1.
Proof.
  intros Hc Hts. destruct ev as [url|i]; cbn [sys_step].
  - split; [done|]. apply Forall_app. split; [done|].
    by apply Forall_singleton.
  - destruct (ts !! i) as [t|] eqn:Hi; [|done].
    assert (Ht : not_copying_to f t).
    { rewrite Forall_forall in Hts. apply Hts.
      by eapply list_elem_of_lookup_2. }
    destruct (task_step_preserves env s t w f c Hc Ht) as [Hw Ht'].
    destruct (task_step filepath_Join env s t w) as [t' w'].
    split; [done|]. by apply Forall_insert.
Qed.

Lemma sys_run_preserves env s evs :
  forall ts w f c,
    files w !! f = Some c ->
    Forall (not_copying_to f) ts ->
    files (sys_run filepath_Join env s evs (ts, w)).2 !! f = Some c.
Proof.
  unfold sys_run.
  induction evs as [|ev evs IH]; intros ts w f c Hc Hts; [done|].
  cbn [fold_left].
  destruct (sys_step_preserves env s ev ts w f c Hc Hts) as [Hw Hts'].
  destruct (sys_step filepath_Join env s ev (ts, w)) as [ts' w'].
  by apply IH.
Qed.

End SaverProps.

(** ** A call of [Save] is a goroutine run to its end *)

Section SaveAsTask.

Variable filepath_Join : string -> string -> string.
Variable env : Env.
Variable s : Saver.

Lemma task_run_add n m t w :
  task_run filepath_Join (n + m) env s t w
  = task_run filepath_Join m env s
      (task_run filepath_Join n env s t w).1
      (task_run filepath_Join n env s t w).2.
Proof.
  revert t w. induction n as [|n IH]; intros t w; [done|].
  cbn [Nat.add task_run].
  destruct (task_step filepath_Join env s t w) as [t' w']. apply IH.
Qed.

Lemma with_files_id w : with_files w (files w) = w.
Proof. by destruct w. Qed.

(** Copying byte by byte appends the body to what the file holds. *)
Lemma task_run_copy url f cerr rest :
  forall w written,
    files w !! f = Some written ->
    task_run filepath_Join (length rest) env s (AtCopy url f rest cerr) w
    = (AtCopy url f [] cerr,
       with_files w (<[f := written ++ rest]> (files w))).
Proof.
  induction rest as [|x rest IH]; intros w written Hw.
  - cbn [length task_run]. rewrite app_nil_r, insert_id by done.
    by rewrite with_files_id.
  - cbn [length task_run task_step]. rewrite Hw. cbn [default].
    rewrite (IH _ (written ++ [x])).
    + unfold with_files. cbn [files requests logs].
      by rewrite insert_insert_eq, <- app_assoc.
    + cbn [with_files files]. apply lookup_insert_eq.
Qed.

Lemma task_run_Save url w :
  exists n,
    task_run filepath_Join n env s (AtGet url) w
    = (Returned (Save filepath_Join env s url w).2,
       (Save filepath_Join env s url w).1).
Proof.
  unfold Save.
  destruct (web env (length (requests w)) url) as [e|b] eqn:Hweb.
  { exists 1%nat. cbn [task_run task_step]. by rewrite Hweb. }
  destruct (OpenFile_excl env (file_name filepath_Join s url)
              (with_request w url)) as [e|w1] eqn:Hopen.
  { exists 2%nat. cbn [task_run task_step]. rewrite Hweb.
    cbn [task_run task_step]. rewrite Hopen.
    by destruct (String.eqb e file_exists_msg). }
  assert (Hnew : files w1 !! file_name filepath_Join s url = Some []).
  { unfold OpenFile_excl in Hopen.
    destruct (files (with_request w url) !! file_name filepath_Join s url);
      [done|].
    destruct (open_fault env (file_name filepath_Join s url)); [done|].
    injection Hopen as <-. cbn [with_files files]. apply lookup_insert_eq. }
  exists (2 + (length (copied b) + 1))%nat.
  cbn [Nat.add task_run task_step]. rewrite Hweb.
  cbn [task_run task_step]. rewrite Hopen.
  rewrite task_run_add, (task_run_copy _ _ _ _ _ [] Hnew).
  cbn [fst snd app task_run task_step].
  by destruct (copy_err b).
Qed.

End SaveAsTask.

(** ** The file name of a URL *)

Lemma split_from_nonempty sep s : forall cur, split_from sep cur s <> [].
Proof.
  induction s as [|c s IH]; intros cur; simpl; [done|].
  destruct (Ascii.eqb c sep); [done|apply IH].
Qed.

Lemma append_empty (cur : string) : (cur ++ EmptyString)%string = cur.
Proof.
  induction cur as [|c cur IH]; [reflexivity|].
  change (String c (cur ++ EmptyString)%string = String c cur).
  by rewrite IH.
Qed.

Lemma append_snoc (cur : string) c seg :
  ((cur ++ String c EmptyString) ++ seg)%string
  = (cur ++ String c seg)%string.
Proof.
  induction cur as [|c' cur IH]; [reflexivity|].
  change (String c' ((cur ++ String c EmptyString) ++ seg)%string
          = String c' (cur ++ String c seg)%string).
  by rewrite IH.
Qed.

Lemma split_from_no_slash seg :
  forall cur,
    has_slash seg = false ->
    split_from "/" cur seg = [(cur ++ seg)%string].
Proof.
  induction seg as [|c seg IH]; intros cur; simpl.
  - intros _. by rewrite append_empty.
  - destruct (Ascii.eqb c "/"); simpl; [done|].
    intros Hseg. by rewrite (IH _ Hseg), append_snoc.
Qed.

Lemma split_from_last prefix seg :
  has_slash seg = false ->
  forall cur,
    List.last (split_from "/" cur (prefix ++ String "/" seg)) EmptyString
    = seg.
Proof.
  intros Hseg.
  induction prefix as [|c prefix IH]; intros cur.
  - change (EmptyString ++ String "/" seg)%string with (String "/" seg).
    cbn [split_from]. rewrite ?Ascii.eqb_refl.
    by rewrite (split_from_no_slash _ _ Hseg).
  - change (String c prefix ++ String "/" seg)%string
      with (String c (prefix ++ String "/" seg)%string).
    cbn [split_from]. destruct (Ascii.eqb c "/").
    + specialize (IH EmptyString).
      pose proof (split_from_nonempty "/" (prefix ++ String "/" seg)
                    EmptyString) as Hne.
      destruct (split_from "/" EmptyString (prefix ++ String "/" seg));
        done.
    + apply IH.
Qed.

(** The last piece is what follows the last ['/']. *)
Lemma last_segment_after_slash prefix seg :
  has_slash seg = false ->
  last_segment (prefix ++ "/" ++ seg) = seg.
Proof.
  intros Hseg. unfold last_segment, Split.
  by apply split_from_last.
Qed.

Lemma last_segment_whole seg :
  has_slash seg = false -> last_segment seg = seg.
Proof.
  intros Hseg. unfold last_segment, Split.
  by rewrite (split_from_no_slash _ _ Hseg).
Qed.

Example last_segment_abc : last_segment url_abc = "abc.jpg"%string.
Proof. reflexivity. Qed.

(** ** Saving a URL whose file is there *)

(** C2 (as the code has it).  [Save] requests the URL before it tries to
    create the file.  First part: when the file is there, the call makes
    exactly one request, returns that request's error if it failed and
    [nil] with the skip logged otherwise, and leaves every file as it was.
    Second part: of two calls in sequence on a URL whose file is created by
    the first, the second leaves the file holding what the first wrote, and
    the two calls made two requests. *)
Theorem save_existing_file_skips_after_request filepath_Join env s url :
  (forall w c,
      files w !! file_name filepath_Join s url = Some c ->
      files (Save filepath_Join env s url w).1 = files w
      /\ requests (Save filepath_Join env s url w).1 = requests w ++ [url]
      /\ match web env (length (requests w)) url with
         | GetError e =>
             (Save filepath_Join env s url w).2 = Some e
             /\ logs (Save filepath_Join env s url w).1 = logs w
         | GetBody _ =>
             (Save filepath_Join env s url w).2 = None
             /\ logs (Save filepath_Join env s url w).1
                = logs w
                  ++ [("[saver] " ++ file_name filepath_Join s url
                       ++ " is exists. so skip it.")%string]
         end)
  /\ (forall w b,
         files w !! file_name filepath_Join s url = None ->
         web env (length (requests w)) url = GetBody b ->
         open_fault env (file_name filepath_Join s url) = None ->
         let first := Save filepath_Join env s url w in
         let second := Save filepath_Join env s url first.1 in
         first.2 = copy_err b
         /\ files first.1 !! file_name filepath_Join s url = Some (copied b)
         /\ files second.1 = files first.1
         /\ requests second.1 = requests w ++ [url; url]).
Proof.
  split.
  - intros w c Hc. rewrite (Save_existing _ _ _ _ _ _ Hc).
    by destruct (web env (length (requests w)) url).
  - intros w b Hnone Hweb Hfault first second.
    assert (Hfirst : files first.1 !! file_name filepath_Join s url
                     = Some (copied b)
                     /\ requests first.1 = requests w ++ [url]
                     /\ first.2 = copy_err b).
    { subst first. rewrite (Save_new _ _ _ _ _ _ Hnone Hweb Hfault).
      cbv zeta. destruct (copy_err b); cbn; by rewrite lookup_insert_eq. }
    destruct Hfirst as (Hfile & Hreq & Hres).
    split; [done|]. split; [done|]. subst second.
    rewrite (Save_existing _ _ _ _ _ _ Hfile).
    destruct (web env (length (requests first.1)) url); cbn;
      by rewrite Hreq, <- app_assoc.
Qed.

Lemma save_twice_skips_after_request :
  let first := Save simple_join env_up out_dir url_abc empty_world in
  let second := Save simple_join env_up out_dir url_abc first.1 in
  first.2 = copy_err body_abc
  /\ files first.1 !! file_name simple_join out_dir url_abc
     = Some (copied body_abc)
  /\ files second.1 = files first.1
  /\ requests second.1 = requests empty_world ++ [url_abc; url_abc].
Proof.
  apply (proj2 (save_existing_file_skips_after_request
                  simple_join env_up out_dir url_abc)
               empty_world body_abc).
  - reflexivity.
  - reflexivity.
  - reflexivity.
Defined.

(** C2 (as the claim states it) fails: the second call on the same URL
    finds its file and still makes a request. *)
Lemma second_save_requests_again :
  let first := Save simple_join env_up out_dir url_abc empty_world in
  let second := Save simple_join env_up out_dir url_abc first.1 in
  files first.1 !! file_name simple_join out_dir url_abc
  = Some (copied body_abc)
  /\ requests first.1 = [url_abc]
  /\ requests second.1 = [url_abc; url_abc]
  /\ requests second.1 <> requests first.1.
Proof. vm_compute. repeat split; try reflexivity. discriminate. Qed.

(** ** Files are written once *)

(** C8.  A file of the output directory is never written again: its
    content is the same after any sequence of [Save] calls run one after
    the other, and after any interleaving of the steps of any number of
    download goroutines, those in flight when the file is observed
    included, as long as none of them is the one still writing it. *)
Theorem existing_file_never_modified filepath_Join env s w f c :
  files w !! f = Some c ->
  (forall urls,
      files (Save_all filepath_Join env s urls w).1 !! f = Some c)
  /\ (forall evs ts,
         Forall (not_copying_to f) ts ->
         files (sys_run filepath_Join env s evs (ts, w)).2 !! f = Some c).
Proof.
  intros Hc. split.
  - intros urls. by apply Save_all_preserves.
  - intros evs ts Hts. by apply sys_run_preserves.
Qed.

Lemma existing_file_never_modified_abc :
  let w := (Save simple_join env_up out_dir url_abc empty_world).1 in
  (forall urls,
      files (Save_all simple_join env_up out_dir urls w).1
      !! "/out/abc.jpg"%string
      = Some (copied body_abc))
  /\ (forall evs ts,
         Forall (not_copying_to "/out/abc.jpg") ts ->
         files (sys_run simple_join env_up out_dir evs (ts, w)).2
         !! "/out/abc.jpg"%string
         = Some (copied body_abc)).
Proof.
  apply (existing_file_never_modified simple_join env_up out_dir
           (Save simple_join env_up out_dir url_abc empty_world).1
           "/out/abc.jpg"%string (copied body_abc)).
  reflexivity.
Defined.

(** Two downloads of the mirror and of the original, interleaved byte by
    byte after the file is there: both skip. *)
Example interleaved_downloads_skip :
  let w := (Save simple_join env_up out_dir url_abc empty_world).1 in
  let sy := sys_run simple_join env_up out_dir
              [Spawn url_abc_mirror; Spawn url_abc;
               Step 0; Step 1; Step 1; Step 0] ([], w) in
  sy.1 = [Returned None; Returned None] /\ files sy.2 = files w.
Proof. vm_compute. split; reflexivity. Qed.

(** ** Two URLs with the same last segment *)

(** C10 (as the code has it).  URLs with the same last segment are saved
    under the same file name.  Once a call has created that file from the
    first URL, a call for the second URL makes its own request, returns
    [nil] if the request was answered and the request's error otherwise,
    and in both cases creates or writes no file: the file holds what was
    copied from the first URL. *)
Theorem same_segment_same_file filepath_Join env s url1 url2 w b :
  last_segment url1 = last_segment url2 ->
  files w !! file_name filepath_Join s url1 = None ->
  web env (length (requests w)) url1 = GetBody b ->
  open_fault env (file_name filepath_Join s url1) = None ->
  let first := Save filepath_Join env s url1 w in
  let second := Save filepath_Join env s url2 first.1 in
  file_name filepath_Join s url1 = file_name filepath_Join s url2
  /\ first.2 = copy_err b
  /\ files second.1 = files first.1
  /\ files second.1 !! file_name filepath_Join s url2 = Some (copied b)
  /\ second.2 = match web env (length (requests first.1)) url2 with
                | GetError e => Some e
                | GetBody _ => None
                end.
Proof.
  intros Hseg Hnone Hweb Hfault first second.
  assert (Hname : file_name filepath_Join s url1
                  = file_name filepath_Join s url2).
  { unfold file_name. by rewrite Hseg. }
  assert (Hfirst : files first.1 !! file_name filepath_Join s url2
                   = Some (copied b)
                   /\ first.2 = copy_err b).
  { subst first. rewrite (Save_new _ _ _ _ _ _ Hnone Hweb Hfault).
    rewrite <- Hname. cbv zeta.
    destruct (copy_err b); cbn; by rewrite lookup_insert_eq. }
  destruct Hfirst as [Hfile Hres].
  split; [done|]. split; [done|]. subst second.
  rewrite (Save_existing _ _ _ _ _ _ Hfile).
  destruct (web env (length (requests first.1)) url2); by cbn.
Qed.

Lemma same_segment_same_file_mirror_up :
  let first := Save simple_join env_up out_dir url_abc empty_world in
  let second := Save simple_join env_up out_dir url_abc_mirror first.1 in
  file_name simple_join out_dir url_abc
  = file_name simple_join out_dir url_abc_mirror
  /\ first.2 = copy_err body_abc
  /\ files second.1 = files first.1
  /\ files second.1 !! file_name simple_join out_dir url_abc_mirror
     = Some (copied body_abc)
  /\ second.2 = match web env_up (length (requests first.1)) url_abc_mirror
                with
                | GetError e => Some e
                | GetBody _ => None
                end.
Proof.
  apply (same_segment_same_file simple_join env_up out_dir
           url_abc url_abc_mirror empty_world body_abc).
  - reflexivity.
  - reflexivity.
  - reflexivity.
  - reflexivity.
Defined.

(** C10 (as the claim states it) fails: the two URLs differ and end in the
    same segment, the first is saved successfully, and the call for the
    second returns an error because its own request is not answered. *)
Lemma same_segment_second_save_fails :
  let first := Save simple_join env_mirror_down out_dir url_abc empty_world in
  let second :=
    Save simple_join env_mirror_down out_dir url_abc_mirror first.1 in
  url_abc <> url_abc_mirror
  /\ last_segment url_abc = last_segment url_abc_mirror
  /\ first.2 = None
  /\ second.2 = Some "timeout"%string.
Proof. vm_compute. repeat split; try reflexivity. discriminate. Qed.

(** * Further properties of the program *)

(** ** [strings.Split] and the agents of [main] *)

Lemma append_String c (s t : string) :
  (String c s ++ t)%string = String c (s ++ t)%string.
Proof. reflexivity. Qed.

Lemma split_from_concat sep s :
  forall cur,
    String.concat (String sep EmptyString) (split_from sep cur s)
    = (cur ++ s)%string.
Proof.
  induction s as [|c s IH]; intros cur; cbn [split_from].
  - by rewrite append_empty.
  - destruct (Ascii.eqb_spec c sep) as [->|Hne].
    + specialize (IH EmptyString).
      pose proof (split_from_nonempty sep s EmptyString) as Hnil.
      destruct (split_from sep EmptyString s) as [|x xs]; [done|].
      cbn [String.concat]. cbn [String.concat] in IH. rewrite IH.
      reflexivity.
    + by rewrite IH, append_snoc.
Qed.

Lemma split_from_length sep s :
  forall cur, length (split_from sep cur s) = S (count_char sep s).
Proof.
  induction s as [|c s IH]; intros cur; cbn [split_from count_char];
    [done|].
  destruct (Ascii.eqb c sep); cbn [length]; by rewrite IH.
Qed.

Lemma has_char_snoc sep cur c :
  has_char sep cur = false -> Ascii.eqb c sep = false ->
  has_char sep (cur ++ String c EmptyString) = false.
Proof.
  intros Hcur Hc. induction cur as [|c' cur IH].
  - change (has_char sep (String c EmptyString) = false).
    cbn [has_char]. by rewrite Hc.
  - rewrite append_String. cbn [has_char] in *.
    apply orb_false_elim in Hcur as [-> Hcur]. by rewrite IH.
Qed.

Lemma split_from_no_sep sep s :
  forall cur,
    has_char sep cur = false ->
    Forall (fun piece => has_char sep piece = false)
           (split_from sep cur s).
Proof.
  induction s as [|c s IH]; intros cur Hcur; cbn [split_from].
  - by constructor.
  - destruct (Ascii.eqb c sep) eqn:Hc.
    + constructor; [done|]. by apply IH.
    + apply IH. by apply has_char_snoc.
Qed.

(** X1.  [main] makes one agent per piece of the [hostnames] flag cut at
    its commas, even for an empty flag: the list is never empty, so the
    "empty agents" exit is never taken.  The agents are as many as the
    commas plus one, start without watermark, carry the API key, have host
    names without comma, and their host names joined by commas give the
    flag back. *)
Theorem main_agents_from_hostnames apiKey hostnames :
  main_agents apiKey hostnames = inr (make_agents apiKey hostnames)
  /\ length (make_agents apiKey hostnames)
     = S (count_char "," hostnames)
  /\ String.concat "," (map Hostname (make_agents apiKey hostnames))
     = hostnames
  /\ Forall (fun a => lastId a = 0 /\ ApiKey a = apiKey
                      /\ has_char "," (Hostname a) = false)
            (make_agents apiKey hostnames).
Proof.
  assert (Hlen : length (make_agents apiKey hostnames)
                 = S (count_char "," hostnames)).
  { unfold make_agents, Split. rewrite length_map.
    apply split_from_length. }
  split; [|split; [done|split]].
  - unfold main_agents. cbv zeta. by rewrite Hlen.
  - unfold make_agents, Split. rewrite map_map. cbn [Hostname].
    rewrite map_id. apply (split_from_concat "," hostnames EmptyString).
  - unfold make_agents, Split. apply Forall_map.
    eapply Forall_impl;
      [apply (split_from_no_sep "," hostnames EmptyString eq_refl)|].
    by intros piece Hpiece.
Qed.

Example main_agents_of_empty_flag :
  main_agents "key" ""
  = inr [ {| lastId := 0; Hostname := ""; ApiKey := "key" |} ].
Proof. reflexivity. Qed.

(** ** The scan and its queue *)

Lemma send_photos_frame photos :
  forall q0 q,
    send_photos photos (q0 ++ q)
    = ((send_photos photos q).1, q0 ++ (send_photos photos q).2).
Proof.
  induction photos as [|photo photos IH]; intros q0 q; cbn [send_photos];
    [done|].
  destruct (AltSizes photo) as [|sz szs]; [done|].
  by rewrite <- app_assoc, IH.
Qed.

Lemma scan_posts_frame W posts :
  forall q0 q,
    scan_posts W posts (q0 ++ q)
    = ((scan_posts W posts q).1, q0 ++ (scan_posts W posts q).2).
Proof.
  induction posts as [|p posts IH]; intros q0 q; cbn [scan_posts]; [done|].
  destruct (W =? Id p); [done|]. destruct (W >? Id p); [done|].
  rewrite send_photos_frame.
  destruct (send_photos (Photos p) q) as [[|] q']; cbn [fst snd]; [|done].
  apply IH.
Qed.

Lemma Run_loop_frame net a fuel :
  forall offset lid q0 q log,
    Run_loop fuel net a offset lid (q0 ++ q) log
    = option_map (sent_after q0) (Run_loop fuel net a offset lid q log).
Proof.
  induction fuel as [|fuel IH]; intros offset lid q0 q log; [done|].
  cbn [Run_loop]. destruct (Fetch net a limit offset) as [e|resp]; [done|].
  cbv zeta. destruct (Posts (Response resp)) as [|first rest]; [done|].
  destruct (lastId a =? 0); [done|].
  rewrite scan_posts_frame.
  destruct (scan_posts (lastId a) (first :: rest) q) as [[| |] q'];
    cbn [fst snd]; [apply IH|done|done].
Qed.

(** X2.  What a scan does never depends on what the queue already holds,
    and the scan only ever adds to it: a scan started with [q] sent is the
    scan started with nothing sent, with [q] in front of its URLs.  This
    holds for scans that return [nil], an error, or panic. *)
Theorem scan_only_appends_to_queue fuel net a q :
  Run fuel net a q = option_map (sent_after q) (Run fuel net a []).
Proof.
  unfold Run. rewrite <- (app_nil_r q) at 1. apply Run_loop_frame.
Qed.

(** ** The loop as a relation *)

Lemma Run_loop_ends net a fuel :
  forall offset lid q log r,
    Run_loop fuel net a offset lid q log = Some r ->
    scan_ends net a offset lid q log r.
Proof.
  induction fuel as [|fuel IH]; intros offset lid q log r; [done|].
  cbn [Run_loop].
  destruct (Fetch net a limit offset) as [e|resp] eqn:Hf.
  { intros [= <-]. by apply ends_error. }
  assert (Hpage : page_at net a offset = Some (Posts (Response resp))).
  { unfold page_at. by rewrite Hf. }
  cbv zeta. destruct (Posts (Response resp)) as [|first rest] eqn:Hp.
  { intros [= <-]. by apply ends_empty. }
  change (if lid =? 0 then Id first else lid)
    with (first_id lid (first :: rest)).
  destruct (Z.eqb_spec (lastId a) 0) as [Ha|Ha].
  { intros [= <-].
    by apply (ends_bootstrap net a offset lid q log (first :: rest)). }
  destruct (scan_posts (lastId a) (first :: rest) q) as [[| |] q'] eqn:Hs.
  - intros Hrun.
    apply (ends_next net a offset lid q log (first :: rest) q' r);
      try done.
    by apply IH.
  - intros [= <-].
    by apply (ends_break net a offset lid q log (first :: rest) q').
  - intros [= <-].
    by apply (ends_panic net a offset lid q log (first :: rest) q').
Qed.

Lemma scan_ends_Run_loop net a offset lid q log r :
  scan_ends net a offset lid q log r ->
  exists fuel, forall extra,
      Run_loop (fuel + extra) net a offset lid q log = Some r.
Proof.
  induction 1 as [offset lid q log e Hf
                 |offset lid q log Hpage
                 |offset lid q log pg Hpage Hne Ha
                 |offset lid q log pg q' Hpage Hne Ha Hs
                 |offset lid q log pg q' Hpage Hne Ha Hs
                 |offset lid q log pg q' r Hpage Hne Ha Hs _ [fuel IH]].
  - exists 1%nat. intros extra. by apply Run_loop_error.
  - exists 1%nat. intros extra. by apply Run_loop_empty.
  - exists 1%nat. intros extra. by apply Run_loop_bootstrap.
  - exists 1%nat. intros extra.
    destruct (page_at_Some _ _ _ _ Hpage) as (resp & Hf & Hp).
    cbn [Nat.add Run_loop]. rewrite Hf. cbv zeta. rewrite Hp.
    destruct pg as [|first rest]; [done|].
    destruct (Z.eqb_spec (lastId a) 0); [done|]. by rewrite Hs.
  - exists 1%nat. intros extra.
    destruct (page_at_Some _ _ _ _ Hpage) as (resp & Hf & Hp).
    cbn [Nat.add Run_loop]. rewrite Hf. cbv zeta. rewrite Hp.
    destruct pg as [|first rest]; [done|].
    destruct (Z.eqb_spec (lastId a) 0); [done|]. by rewrite Hs.
  - exists (S fuel). intros extra.
    destruct (page_at_Some _ _ _ _ Hpage) as (resp & Hf & Hp).
    cbn [Nat.add Run_loop]. rewrite Hf. cbv zeta. rewrite Hp.
    destruct pg as [|first rest]; [done|].
    destruct (Z.eqb_spec (lastId a) 0); [done|]. rewrite Hs. apply IH.
Qed.

(** ** What a scan does to its agent *)

Lemma finish_agent a lid q log :
  Hostname (agent (finish a lid q log)) = Hostname a
  /\ ApiKey (agent (finish a lid q log)) = ApiKey a
  /\ lastId (agent (finish a lid q log))
     = (if lid =? 0 then lastId a else lid).
Proof.
  unfold finish. cbn [agent].
  destruct (Z.eqb_spec lid 0) as [->|Hlid]; cbn [negb andb]; [done|].
  destruct (Z.eqb_spec (lastId a) lid); cbn [negb]; done.
Qed.

Lemma first_id_held lid pg : lid <> 0 -> first_id lid pg = lid.
Proof.
  intros Hlid. destruct pg as [|first rest]; [done|].
  cbn [first_id]. by destruct (Z.eqb_spec lid 0).
Qed.

Lemma scan_ends_agent net a offset lid q log r :
  scan_ends net a offset lid q log r ->
  Hostname (agent r) = Hostname a
  /\ ApiKey (agent r) = ApiKey a
  /\ (outcome r <> RunOk -> agent r = a)
  /\ (lastId a <> 0 -> lastId (agent r) <> 0).
Proof.
  assert (Hfin : forall lid' q' log',
             Hostname (agent (finish a lid' q' log')) = Hostname a
             /\ ApiKey (agent (finish a lid' q' log')) = ApiKey a
             /\ (outcome (finish a lid' q' log') <> RunOk ->
                 agent (finish a lid' q' log') = a)
             /\ (lastId a <> 0 ->
                 lastId (agent (finish a lid' q' log')) <> 0)).
  { intros lid' q' log'.
    destruct (finish_agent a lid' q' log') as (Hh & Hk & Hl).
    repeat split; try done.
    intros Ha. rewrite Hl. by destruct (Z.eqb_spec lid' 0). }
  induction 1; try apply Hfin; try done.
Qed.

(** X3.  A scan never touches the agent's host name or API key; it returns
    the agent as it was whenever it does not return [nil]; and it never
    turns a present watermark into an absent one. *)
Theorem scan_keeps_agent_identity fuel net a q r :
  Run fuel net a q = Some r ->
  Hostname (agent r) = Hostname a
  /\ ApiKey (agent r) = ApiKey a
  /\ (outcome r <> RunOk -> agent r = a)
  /\ (lastId a <> 0 -> lastId (agent r) <> 0).
Proof.
  intros Hrun. apply (Run_loop_ends net a fuel 0 0 q [] r) in Hrun.
  by apply (scan_ends_agent net a 0 0 q [] r).
Qed.

Lemma scan_keeps_agent_identity_two_pages :
  Hostname (agent {| agent := blog 130; queue := [];
                     fetched := [0; 20]; outcome := RunOk |})
  = Hostname (blog 100)
  /\ ApiKey (agent {| agent := blog 130; queue := [];
                      fetched := [0; 20]; outcome := RunOk |})
     = ApiKey (blog 100)
  /\ (outcome {| agent := blog 130; queue := [];
                 fetched := [0; 20]; outcome := RunOk |} <> RunOk ->
      agent {| agent := blog 130; queue := [];
               fetched := [0; 20]; outcome := RunOk |} = blog 100)
  /\ (lastId (blog 100) <> 0 ->
      lastId (agent {| agent := blog 130; queue := [];
                       fetched := [0; 20]; outcome := RunOk |}) <> 0).
Proof.
  apply (scan_keeps_agent_identity 2
           (upstream_of [ok_page [post 130 []; post 120 []]]) (blog 100) []).
  reflexivity.
Defined.

(** The candidate taken from the first page is the watermark of every
    scan that returns [nil]. *)
Lemma scan_ends_watermark net a offset lid q log r :
  scan_ends net a offset lid q log r ->
  lid <> 0 -> outcome r = RunOk -> lastId (agent r) = lid.
Proof.
  assert (Hfin : forall lid' q' log',
             lid' <> 0 -> lastId (agent (finish a lid' q' log')) = lid').
  { intros lid' q' log' Hlid.
    destruct (finish_agent a lid' q' log') as (_ & _ & ->).
    by destruct (Z.eqb_spec lid' 0). }
  induction 1 as [| | |
                  |offset lid q log pg q' Hpage Hne Ha Hs
                  |offset lid q log pg q' r Hpage Hne Ha Hs _ IH];
    intros Hlid Hok; try done.
  - by apply Hfin.
  - rewrite (first_id_held _ _ Hlid). by apply Hfin.
  - rewrite (first_id_held _ _ Hlid). by apply Hfin.
  - rewrite (first_id_held _ _ Hlid) in IH. by apply IH.
Qed.

Lemma Run_watermark_after fuel net a q r first rest :
  Run fuel net a q = Some r ->
  outcome r = RunOk ->
  page_at net a 0 = Some (first :: rest) ->
  Id first <> 0 ->
  lastId (agent r) = Id first.
Proof.
  intros Hrun Hok Hpage Hfirst.
  assert (Hfin : forall q' log',
             lastId (agent (finish a (Id first) q' log')) = Id first).
  { intros q' log'.
    destruct (finish_agent a (Id first) q' log') as (_ & _ & ->).
    by destruct (Z.eqb_spec (Id first) 0). }
  destruct fuel as [|fuel]; [done|].
  destruct (page_at_Some _ _ _ _ Hpage) as (resp & Hf & Hp).
  unfold Run in Hrun. cbn [Run_loop] in Hrun.
  rewrite Hf in Hrun. cbv zeta in Hrun. rewrite Hp in Hrun.
  change (if 0 =? 0 then Id first else 0) with (Id first) in Hrun.
  destruct (lastId a =? 0).
  { injection Hrun as <-. apply Hfin. }
  destruct (scan_posts (lastId a) (first :: rest) q) as [[| |] q'].
  - apply Run_loop_ends in Hrun.
    by apply (scan_ends_watermark _ _ _ _ _ _ _ Hrun).
  - injection Hrun as <-. apply Hfin.
  - injection Hrun as <-. done.
Qed.

Lemma page_at_same_host net a a' offset :
  Hostname a' = Hostname a -> ApiKey a' = ApiKey a ->
  page_at net a' offset = page_at net a offset.
Proof. intros Hh Hk. unfold page_at, Fetch. by rewrite Hh, Hk. Qed.

(** X4.  A scan that returns [nil] after a first page starting with a post
    of non-zero identifier leaves that identifier as the watermark,
    wherever it stopped and whatever the watermark was before (also when
    the identifier is below it); the next scan over the same pages sends
    nothing, requests one page and leaves the agent as it is. *)
Theorem scan_sets_watermark_then_idles fuel net a q r first rest :
  Run fuel net a q = Some r ->
  outcome r = RunOk ->
  page_at net a 0 = Some (first :: rest) ->
  Id first <> 0 ->
  lastId (agent r) = Id first
  /\ forall fuel' q',
      Run (S fuel') net (agent r) q'
      = Some {| agent := agent r; queue := q'; fetched := [0];
                outcome := RunOk |}.
Proof.
  intros Hrun Hok Hpage Hfirst.
  pose proof (Run_watermark_after _ _ _ _ _ _ _ Hrun Hok Hpage Hfirst)
    as Hmark.
  split; [done|]. intros fuel' q'.
  apply (Run_loop_ends net a fuel 0 0 q [] r) in Hrun.
  destruct (scan_ends_agent _ _ _ _ _ _ _ Hrun) as (Hh & Hk & _ & _).
  rewrite <- (page_at_same_host net a (agent r) 0 Hh Hk) in Hpage.
  assert (Hnz : lastId (agent r) <> 0) by congruence.
  assert (Hle : Id first <= lastId (agent r)) by lia.
  unfold Run.
  rewrite (Run_loop_page_stop net (agent r) fuel' 0 0 q' [] [] first rest
             Hnz Hpage (Forall_nil_2 _) Hle).
  cbn [app urls_of flat_map first_id]. rewrite app_nil_r.
  change (if 0 =? 0 then Id first else 0) with (Id first).
  unfold finish. rewrite Hmark, Z.eqb_refl.
  destruct (Z.eqb_spec (Id first) 0); [done|]. cbn [negb andb].
  by destruct (agent r).
Qed.

Lemma scan_sets_watermark_then_idles_110 :
  lastId (agent {| agent := blog 110;
                   queue := ["https://m.example.com/a/p110a.jpg";
                             "https://m.example.com/a/p110b.jpg";
                             "https://m.example.com/a/p108.jpg"]%string;
                   fetched := [0]; outcome := RunOk |})
  = Id (post 110 ["https://m.example.com/a/p110a.jpg";
                  "https://m.example.com/a/p110b.jpg"])
  /\ forall fuel' q',
      Run (S fuel') (upstream_of [ok_page page_next])
          (agent {| agent := blog 110;
                    queue := ["https://m.example.com/a/p110a.jpg";
                              "https://m.example.com/a/p110b.jpg";
                              "https://m.example.com/a/p108.jpg"]%string;
                    fetched := [0]; outcome := RunOk |}) q'
      = Some {| agent :=
                  agent {| agent := blog 110;
                           queue := ["https://m.example.com/a/p110a.jpg";
                                     "https://m.example.com/a/p110b.jpg";
                                     "https://m.example.com/a/p108.jpg"
                                    ]%string;
                           fetched := [0]; outcome := RunOk |};
                queue := q'; fetched := [0]; outcome := RunOk |}.
Proof.
  apply (scan_sets_watermark_then_idles 1 (upstream_of [ok_page page_next])
           (blog 105) [] _
           (post 110 ["https://m.example.com/a/p110a.jpg";
                      "https://m.example.com/a/p110b.jpg"])
           [post 108 ["https://m.example.com/a/p108.jpg"];
            post 105 ["https://m.example.com/a/p105.jpg"]]).
  - reflexivity.
  - reflexivity.
  - reflexivity.
  - simpl. lia.
Defined.

(** ** The pages a scan requests *)

Lemma length_offsets n : forall offset, length (offsets offset n) = n.
Proof. induction n as [|n IH]; intros offset; simpl; by rewrite ?IH. Qed.

Lemma Run_loop_fetched net a fuel :
  forall offset lid q log r,
    Run_loop fuel net a offset lid q log = Some r ->
    0 <= offset ->
    offset + limit * Z.of_nat fuel <= GoInt.int_max ->
    exists n, (n < fuel)%nat /\ fetched r = log ++ offsets offset (S n).
Proof.
  assert (Hlim : 0 < limit) by (unfold limit; lia).
  induction fuel as [|fuel IH]; intros offset lid q log r; [done|].
  intros Hrun Hoff Hmax.
  assert (Hone : forall r',
             fetched r' = log ++ [offset] ->
             exists n, (n < S fuel)%nat
                       /\ fetched r' = log ++ offsets offset (S n)).
  { intros r' Hr'. exists 0%nat. split; [lia|done]. }
  cbn [Run_loop] in Hrun.
  destruct (Fetch net a limit offset) as [e|resp].
  { injection Hrun as <-. by apply Hone. }
  cbv zeta in Hrun. destruct (Posts (Response resp)) as [|first rest].
  { injection Hrun as <-. by apply Hone. }
  destruct (lastId a =? 0).
  { injection Hrun as <-. by apply Hone. }
  destruct (scan_posts (lastId a) (first :: rest) q) as [[| |] q'].
  - rewrite add_limit in Hrun by nia.
    destruct (IH _ _ _ _ _ Hrun) as (n & Hn & Hfetched); [lia|nia|].
    exists (S n). split; [lia|].
    rewrite Hfetched, <- app_assoc. reflexivity.
  - injection Hrun as <-. by apply Hone.
  - injection Hrun as <-. by apply Hone.
Qed.

(** X5.  A scan requests the pages at offsets 0, 20, 40, ... in this
    order, without a gap and without asking twice, at least one and at most
    as many as the iterations it is given (as long as the offsets stay
    below 2^63). *)
Theorem scan_requests_consecutive_pages fuel net a q r :
  Run fuel net a q = Some r ->
  limit * Z.of_nat fuel <= GoInt.int_max ->
  fetched r = offsets 0 (length (fetched r))
  /\ (1 <= length (fetched r) <= fuel)%nat.
Proof.
  intros Hrun Hmax.
  destruct (Run_loop_fetched net a fuel 0 0 q [] r Hrun) as (n & Hn & Hf);
    [lia|lia|].
  cbn [app] in Hf. rewrite Hf, length_offsets. split; [done|lia].
Qed.

Lemma scan_requests_consecutive_pages_two :
  fetched {| agent := blog 130; queue := [];
             fetched := [0; 20]; outcome := RunOk |}
  = offsets 0 (length (fetched {| agent := blog 130; queue := [];
                                  fetched := [0; 20]; outcome := RunOk |}))
  /\ (1 <= length (fetched {| agent := blog 130; queue := [];
                              fetched := [0; 20]%Z; outcome := RunOk |})
      <= 5)%nat.
Proof.
  apply (scan_requests_consecutive_pages 5
           (upstream_of [ok_page [post 130 []; post 120 []]]) (blog 100) []).
  - reflexivity.
  - vm_compute. discriminate.
Defined.

(** ** Scans over feeds in any order *)

(** X6.  With a watermark, whatever the order of the identifiers, the scan
    sends the URLs of the posts that come before the first post at or
    below the watermark, and of no post after it, newer or not; it requests
    no page after the one holding that post, and returns [nil].  Without
    such a post it sends every post and ends at the empty page. *)
Theorem scan_sends_up_to_first_known_post net a q pages :
  lastId a <> 0 ->
  Forall (fun pg => pg <> []) pages ->
  serves net a 0 pages ->
  Exists (fun p => Id p <= lastId a) (concat pages)
  \/ page_at net a (limit * Z.of_nat (length pages)) = Some [] ->
  Forall has_variants (take_while (is_new (lastId a)) (concat pages)) ->
  limit * Z.of_nat (length pages) <= GoInt.int_max ->
  exists r rest,
    (forall extra,
        Run (fetch_count (lastId a) pages + extra) net a q = Some r)
    /\ outcome r = RunOk
    /\ queue r = q ++ urls_of (take_while (is_new (lastId a)) (concat pages))
    /\ concat pages = take_while (is_new (lastId a)) (concat pages) ++ rest
    /\ match rest with
       | [] => True
       | p :: _ => Id p <= lastId a
       end
    /\ fetched r = offsets 0 (fetch_count (lastId a) pages).
Proof.
  intros Ha Hne Hserve Hend Hvar Hmax.
  assert (Hrest : forall l : list Post,
             exists rest,
               l = take_while (is_new (lastId a)) l ++ rest
               /\ match rest with
                  | [] => True
                  | p :: _ => Id p <= lastId a
                  end).
  { induction l as [|p l (rest & Hl & Hhead)]; [by exists []|].
    cbn [take_while]. destruct (is_new (lastId a) p) eqn:Hp.
    - exists rest. split; [cbn [app]; by rewrite <- Hl|done].
    - exists (p :: l). split; [done|]. unfold is_new in Hp. lia. }
  destruct (Hrest (concat pages)) as (rest & Hsplit & Hhead).
  eexists _, rest. split; [|split; [|split; [|split; [|split]]]].
  - intros extra. unfold Run. by apply Run_loop_scan.
  - reflexivity.
  - reflexivity.
  - exact Hsplit.
  - exact Hhead.
  - reflexivity.
Qed.

Lemma scan_sends_up_to_first_known_post_disordered :
  exists r rest,
    (forall extra,
        Run (fetch_count (lastId (blog 100)) [page_disordered] + extra)
            (upstream_of [ok_page page_disordered]) (blog 100) [] = Some r)
    /\ outcome r = RunOk
    /\ queue r
       = [] ++ urls_of (take_while (is_new (lastId (blog 100)))
                          (concat [page_disordered]))
    /\ concat [page_disordered]
       = take_while (is_new (lastId (blog 100))) (concat [page_disordered])
         ++ rest
    /\ match rest with
       | [] => True
       | p :: _ => Id p <= lastId (blog 100)
       end
    /\ fetched r = offsets 0 (fetch_count (lastId (blog 100))
                                [page_disordered]).
Proof.
  apply (scan_sends_up_to_first_known_post
           (upstream_of [ok_page page_disordered]) (blog 100) []
           [page_disordered]).
  - simpl. lia.
  - repeat constructor; discriminate.
  - served.
  - left. simpl. apply Exists_cons_tl, Exists_cons_hd. simpl. lia.
  - simpl. repeat (constructor; [apply post_has_variants|]). constructor.
  - vm_compute. discriminate.
Defined.

(** The newer post listed after the known one is not sent. *)
Example disordered_page_loses_post_120 :
  Run 1 (upstream_of [ok_page page_disordered]) (blog 100) []
  = Some {| agent := blog 110;
            queue := ["https://m.example.com/a/p110a.jpg"]%string;
            fetched := [0]; outcome := RunOk |}.
Proof. reflexivity. Qed.

(** ** A failed tick and the next one *)

(** X7.  After a tick whose scan returned an error, the next tick of that
    agent, whatever the upstream then answers, only takes a new watermark:
    it requests the page at offset 0 and sends no URL, so the posts
    published in between are never downloaded. *)
Theorem tick_after_failure_sends_nothing fuel net a q r e net' fuel' :
  agent_tick fuel net a q = Some r ->
  outcome r = RunErr e ->
  exists r',
    agent_tick (S fuel') net' (agent r) (queue r) = Some r'
    /\ queue r' = queue r
    /\ fetched r' = [0]
    /\ forall first rest,
        page_at net' (agent r) 0 = Some (first :: rest) ->
        outcome r' = RunOk /\ lastId (agent r') = Id first.
Proof.
  intros Htick Hout.
  assert (Ha : lastId (agent r) = 0).
  { unfold agent_tick in Htick.
    destruct (Run fuel net a q) as [r0|]; [|done].
    destruct (outcome r0) eqn:Hr0.
    - injection Htick as <-. congruence.
    - by injection Htick as <-.
    - injection Htick as <-. congruence. }
  unfold agent_tick, Run.
  destruct (page_at net' (agent r) 0) as [pg|] eqn:Hpage.
  - rewrite (Run_loop_bootstrap _ _ _ _ _ _ _ _ Ha Hpage).
    cbn [outcome finish]. eexists. split; [reflexivity|].
    split; [done|]. split; [done|].
    intros first rest [= ->]. split; [done|].
    destruct (finish_agent (agent r) (first_id 0 (first :: rest))
                (queue r) ([] ++ [0])) as (_ & _ & ->).
    cbn [first_id]. change (0 =? 0) with true. cbv iota.
    destruct (Z.eqb_spec (Id first) 0); congruence.
  - destruct (page_at_None _ _ _ Hpage) as [e' He'].
    rewrite (Run_loop_error _ _ _ _ _ _ _ _ He').
    cbn [outcome queue fetched agent]. eexists. split; [reflexivity|].
    split; [done|]. split; [done|]. done.
Qed.

Lemma tick_after_failure_sends_nothing_105 :
  exists r',
    agent_tick 1 (upstream_of [ok_page page_next])
      (agent {| agent := blog 0; queue := []; fetched := [0];
                outcome := RunErr "timeout" |})
      (queue {| agent := blog 0; queue := []; fetched := [0];
                outcome := RunErr "timeout" |}) = Some r'
    /\ queue r' = queue {| agent := blog 0; queue := []; fetched := [0];
                           outcome := RunErr "timeout" |}
    /\ fetched r' = [0]
    /\ forall first rest,
        page_at (upstream_of [ok_page page_next])
          (agent {| agent := blog 0; queue := []; fetched := [0];
                    outcome := RunErr "timeout" |}) 0
        = Some (first :: rest) ->
        outcome r' = RunOk /\ lastId (agent r') = Id first.
Proof.
  apply (tick_after_failure_sends_nothing 1
           (upstream_of [GetFails "timeout"]) (blog 105) []
           {| agent := blog 0; queue := []; fetched := [0];
              outcome := RunErr "timeout" |} "timeout"%string
           (upstream_of [ok_page page_next]) 0).
  - reflexivity.
  - reflexivity.
Defined.

(** * Further properties of the saver *)

Section SaverMore.

Variable filepath_Join : string -> string -> string.
Variable env : Env.
Variable s : Saver.


(** X8.  Whatever happens, one call of [Save] makes exactly one request,
    for its URL, and either leaves the directory as it is or creates the
    one file named after the URL, which was not there, with the bytes
    copied from the body; in that case it returns what [io.Copy] returned.
    No other file is created, written or removed. *)
Theorem save_one_request_one_file url w :
  requests (Save filepath_Join env s url w).1 = requests w ++ [url]
  /\ (files (Save filepath_Join env s url w).1 = files w
      \/ files w !! file_name filepath_Join s url = None
         /\ exists b,
             web env (length (requests w)) url = GetBody b
             /\ (Save filepath_Join env s url w).2 = copy_err b
             /\ files (Save filepath_Join env s url w).1
                = <[file_name filepath_Join s url := copied b]> (files w))
  /\ forall f,
      f <> file_name filepath_Join s url ->
      files (Save filepath_Join env s url w).1 !! f = files w !! f.
Proof.
  unfold Save.
  destruct (web env (length (requests w)) url) as [e|b] eqn:Hweb.
  { cbn. split; [done|]. split; [by left|done]. }
  unfold OpenFile_excl. cbn [files with_request].
  destruct (files w !! file_name filepath_Join s url) eqn:Hname.
  { cbn. split; [done|]. split; [by left|done]. }
  destruct (open_fault env (file_name filepath_Join s url)) as [e|].
  { destruct (String.eqb e file_exists_msg); cbn;
      (split; [done|]); (split; [by left|done]). }
  assert (Hfiles : <[file_name filepath_Join s url := copied b]>
                     (<[file_name filepath_Join s url := []]> (files w))
                   = <[file_name filepath_Join s url := copied b]> (files w))
    by apply insert_insert_eq.
  destruct (copy_err b) as [e|] eqn:Hcopy; cbn; rewrite Hfiles.
  - split; [done|]. split.
    + right. split; [done|]. exists b. by rewrite Hcopy.
    + intros f Hf. by rewrite lookup_insert_ne.
  - split; [done|]. split.
    + right. split; [done|]. exists b. by rewrite Hcopy.
    + intros f Hf. by rewrite lookup_insert_ne.
Qed.


End SaverMore.

Section SaverPipeline.

Variable filepath_Join : string -> string -> string.
Variable env : Env.
Variable s : Saver.



(** X10.  When [io.Copy] fails after the file was created, [Save] returns
    the error and leaves the file with the bytes copied so far.  No later
    call completes or removes it: after any further saves the file still
    holds those bytes, and a new call for the same URL, if its request is
    answered, returns [nil] and writes nothing. *)
Theorem failed_copy_leaves_partial_file url w b e :
  files w !! file_name filepath_Join s url = None ->
  web env (length (requests w)) url = GetBody b ->
  open_fault env (file_name filepath_Join s url) = None ->
  copy_err b = Some e ->
  (Save filepath_Join env s url w).2 = Some e
  /\ forall urls,
      let w' := (Save_all filepath_Join env s urls
                   (Save filepath_Join env s url w).1).1 in
      files w' !! file_name filepath_Join s url = Some (copied b)
      /\ forall b',
          web env (length (requests w')) url = GetBody b' ->
          (Save filepath_Join env s url w').2 = None
          /\ files (Save filepath_Join env s url w').1 = files w'.
Proof.
  intros Hnone Hweb Hfault Hcopy.
  pose proof (Save_new _ _ _ _ _ _ Hnone Hweb Hfault) as Hsave.
  cbv zeta in Hsave. rewrite Hcopy in Hsave. rewrite Hsave.
  split; [done|]. intros urls w'.
  assert (Hfile : files w' !! file_name filepath_Join s url
                  = Some (copied b)).
  { subst w'. apply Save_all_preserves. cbn [fst with_files files].
    apply lookup_insert_eq. }
  split; [done|]. intros b' Hweb'.
  rewrite (Save_existing _ _ _ _ _ _ Hfile), Hweb'. by cbn.
Qed.

End SaverPipeline.

(** A body cut after two bytes. *)
Lemma failed_copy_leaves_partial_file_abc :
  let env := {| web := fun _ _ =>
                         GetBody {| copied := [Byte.x61; Byte.x62];
                                    copy_err := Some "unexpected EOF" |};
                open_fault := fun _ => None |} in
  (Save simple_join env out_dir url_abc empty_world).2
  = Some "unexpected EOF"%string
  /\ forall urls,
      let w' := (Save_all simple_join env out_dir urls
                   (Save simple_join env out_dir url_abc empty_world).1).1 in
      files w' !! file_name simple_join out_dir url_abc
      = Some (copied {| copied := [Byte.x61; Byte.x62];
                        copy_err := Some "unexpected EOF" |})
      /\ forall b',
          web env (length (requests w')) url_abc = GetBody b' ->
          (Save simple_join env out_dir url_abc w').2 = None
          /\ files (Save simple_join env out_dir url_abc w').1 = files w'.
Proof.
  intros env.
  apply (failed_copy_leaves_partial_file simple_join env out_dir url_abc
           empty_world
           {| copied := [Byte.x61; Byte.x62];
              copy_err := Some "unexpected EOF" |}
           "unexpected EOF"%string).
  - reflexivity.
  - reflexivity.
  - reflexivity.
  - reflexivity.
Defined.

(** ** One writer per file *)

Section OneWriter.

Variable filepath_Join : string -> string -> string.
Variable env : Env.
Variable s : Saver.

(** What one step of a goroutine can do to the directory and to the
    goroutine. *)
Lemma task_step_effect t w :
  (forall f, is_Some (files w !! f) ->
             is_Some (files (task_step filepath_Join env s t w).2 !! f))
  /\ (forall f,
         files (task_step filepath_Join env s t w).2 !! f = files w !! f
         \/ copying_to f t
         \/ files w !! f = None)
  /\ (forall f,
         copying_to f (task_step filepath_Join env s t w).1 ->
         is_Some (files (task_step filepath_Join env s t w).2 !! f)
         /\ (copying_to f t \/ files w !! f = None)).
Proof.
  destruct t as [url|url b|url fileName rest cerr|r].
  - cbn [task_step].
    destruct (web env (length (requests w)) url); cbn; repeat split;
      try done; by left.
  - cbn [task_step]. unfold OpenFile_excl.
    destruct (files w !! file_name filepath_Join s url) eqn:Hname.
    { cbn. repeat split; try done. by left. }
    destruct (open_fault env (file_name filepath_Join s url)) as [e|].
    { destruct (String.eqb e file_exists_msg); cbn; repeat split;
        try done; by left. }
    cbn. split; [|split].
    + intros f Hf. apply lookup_insert_is_Some.
      destruct (decide (file_name filepath_Join s url = f)); auto.
    + intros f. destruct (decide (file_name filepath_Join s url = f))
        as [<-|Hne]; [by right; right|left; by rewrite lookup_insert_ne].
    + intros f <-. split; [|by right]. rewrite lookup_insert_eq. by eexists.
  - destruct rest as [|x rest].
    + destruct cerr; cbn; repeat split; try done; by left.
    + cbn. split; [|split].
      * intros f Hf. apply lookup_insert_is_Some.
        destruct (decide (fileName = f)); auto.
      * intros f. destruct (decide (fileName = f)) as [<-|Hne];
          [by right; left|left; by rewrite lookup_insert_ne].
      * intros f <-. split; [|by left]. rewrite lookup_insert_eq.
        by eexists.
  - cbn. repeat split; try done. by left.
Qed.

Lemma sys_step_writers_apart ev sy :
  writers_apart sy ->
  writers_apart (sys_step filepath_Join env s ev sy).
Proof.
  destruct sy as [ts w]. intros [Hfile Huniq]. cbn [fst snd] in *.
  destruct ev as [url|k]; cbn [sys_step].
  - assert (Hold : forall i t f,
               (ts ++ [AtGet url]) !! i = Some t -> copying_to f t ->
               ts !! i = Some t).
    { intros i t f Hi Ht.
      apply lookup_app_Some in Hi as [Hi|[_ Hi]]; [done|].
      destruct (i - length ts)%nat; [|done].
      injection Hi as <-. done. }
    split; cbn [fst snd].
    + intros i t f Hi Ht. eapply Hfile; [by eapply Hold|done].
    + intros i j t t' f Hi Hj Ht Ht'.
      eapply Huniq; [by eapply Hold|by eapply Hold|done|done].
  - destruct (ts !! k) as [tk|] eqn:Hk; [|by split].
    destruct (task_step_effect tk w) as (Hmono & _ & Hnew).
    destruct (task_step filepath_Join env s tk w) as [tk' w'].
    cbn [fst snd] in *.
    assert (Hlook : forall i t,
               <[k := tk']> ts !! i = Some t ->
               i = k /\ t = tk' \/ i <> k /\ ts !! i = Some t).
    { intros i t Hi.
      apply list_lookup_insert_Some in Hi as [(-> & -> & _)|[Hne Hi]];
        [by left|by right]. }
    split; cbn [fst snd].
    + intros i t f Hi Ht.
      destruct (Hlook i t Hi) as [[-> ->]|[Hne Hi']].
      * by apply Hnew.
      * apply Hmono. by eapply Hfile.
    + intros i j t t' f Hi Hj Ht Ht'.
      destruct (Hlook i t Hi) as [[-> ->]|[Hne Hi']];
        destruct (Hlook j t' Hj) as [[-> ->]|[Hne' Hj']]; try done.
      * destruct (Hnew f Ht) as [_ [Hwas|Hnone]].
        -- symmetry. by eapply (Huniq j k t' tk f).
        -- destruct (Hfile j t' f Hj' Ht') as [c Hc]. congruence.
      * destruct (Hnew f Ht') as [_ [Hwas|Hnone]].
        -- by eapply (Huniq i k t tk f).
        -- destruct (Hfile i t f Hi' Ht) as [c Hc]. congruence.
      * by eapply Huniq.
Qed.

Lemma sys_run_writers_apart evs :
  forall sy,
    writers_apart sy ->
    writers_apart (sys_run filepath_Join env s evs sy).
Proof.
  unfold sys_run. induction evs as [|ev evs IH]; intros sy Hsy; [done|].
  cbn [fold_left]. by apply IH, sys_step_writers_apart.
Qed.

(** X11.  Downloads run concurrently, started from a state where none is
    writing: however their steps interleave, a goroutine that is writing a
    file is the only one writing it, the file is in the directory, and a
    step of any other goroutine leaves the content of that file as it
    is. *)
Theorem concurrent_downloads_one_writer evs ts0 w0 :
  Forall (fun t => forall f, ~ copying_to f t) ts0 ->
  let sy := sys_run filepath_Join env s evs (ts0, w0) in
  forall i t f,
    sy.1 !! i = Some t -> copying_to f t ->
    is_Some (files sy.2 !! f)
    /\ (forall j t', sy.1 !! j = Some t' -> copying_to f t' -> j = i)
    /\ (forall j,
           j <> i ->
           files (sys_step filepath_Join env s (Step j) sy).2 !! f
           = files sy.2 !! f).
Proof.
  intros Hidle sy i t f Hi Ht.
  assert (Hinit : writers_apart (ts0, w0)).
  { rewrite Forall_forall in Hidle. split; cbn [fst snd].
    - intros i' t' f' Hi' Ht'.
      destruct (Hidle t' (list_elem_of_lookup_2 _ _ _ Hi') f' Ht').
    - intros i' j' t' t'' f' Hi' _ Ht'.
      destruct (Hidle t' (list_elem_of_lookup_2 _ _ _ Hi') f' Ht'). }
  pose proof (sys_run_writers_apart evs _ Hinit) as [Hfile Huniq].
  fold sy in Hfile, Huniq.
  split; [by eapply Hfile|]. split.
  - intros j t' Hj Ht'. by eapply (Huniq j i t' t f).
  - intros j Hji. destruct sy as [ts w] eqn:Hsy. cbn [fst snd sys_step] in *.
    destruct (ts !! j) as [tj|] eqn:Hj; [|done].
    destruct (task_step_effect tj w) as (_ & Hloc & _).
    destruct (task_step filepath_Join env s tj w) as [tj' w'].
    cbn [fst snd] in *.
    destruct (Hloc f) as [Heq|[Hcopy|Hnone]]; [done| |].
    + destruct Hji. by eapply (Huniq j i tj t f).
    + destruct (Hfile i t f Hi Ht) as [c Hc]. congruence.
Qed.

End OneWriter.

(** Two downloads of URLs with the same file name, started together: the
    first to open creates the file and writes it alone. *)
Lemma concurrent_downloads_one_writer_abc :
  let sy := sys_run simple_join env_up out_dir
              [Spawn url_abc; Spawn url_abc_mirror;
               Step 0; Step 1; Step 0; Step 0]
              ([], empty_world) in
  let f := "/out/abc.jpg"%string in
  sy.1 !! 0%nat = Some (AtCopy url_abc f [Byte.x62; Byte.x63] None)
  /\ is_Some (files sy.2 !! f)
  /\ (forall j t', sy.1 !! j = Some t' -> copying_to f t' -> j = 0%nat)
  /\ (forall j,
         j <> 0%nat ->
         files (sys_step simple_join env_up out_dir (Step j) sy).2 !! f
         = files sy.2 !! f).
Proof.
  intros sy f. split; [reflexivity|].
  apply (concurrent_downloads_one_writer simple_join env_up out_dir
           [Spawn url_abc; Spawn url_abc_mirror;
            Step 0; Step 1; Step 0; Step 0] [] empty_world
           (Forall_nil_2 _) 0%nat
           (AtCopy url_abc f [Byte.x62; Byte.x63] None) f).
  - reflexivity.
  - reflexivity.
Defined.

Example concurrent_downloads_first_open_wins :
  let sy := sys_run simple_join env_up out_dir
              [Spawn url_abc; Spawn url_abc_mirror;
               Step 0; Step 1; Step 0; Step 1; Step 0; Step 0; Step 0;
               Step 0]
              ([], empty_world) in
  sy.1 = [Returned None; Returned None]
  /\ files sy.2 !! "/out/abc.jpg"%string = Some (copied body_abc).
Proof. vm_compute. split; reflexivity. Qed.

(** ** The file name of any URL *)

Lemma append_assoc3 (x y z : string) :
  ((x ++ y) ++ z)%string = (x ++ (y ++ z))%string.
Proof.
  induction x as [|c x IH]; [reflexivity|].
  rewrite !append_String. by rewrite IH.
Qed.

Lemma has_slash_has_char (x : string) : has_slash x = has_char "/" x.
Proof. induction x as [|c x IH]; cbn; [done|by rewrite IH]. Qed.

Lemma concat_last sep (l : list string) :
  l <> [] ->
  String.concat sep l = List.last l EmptyString
  \/ exists prefix,
      String.concat sep l = (prefix ++ sep ++ List.last l EmptyString)%string.
Proof.
  induction l as [|x l IH]; [done|]. intros _.
  destruct l as [|y l]; [by left|]. right.
  destruct IH as [IH|[prefix IH]]; [done| |].
  - exists x. change (String.concat sep (x :: y :: l))
      with (x ++ sep ++ String.concat sep (y :: l))%string.
    by rewrite IH.
  - exists (x ++ sep ++ prefix)%string.
    change (String.concat sep (x :: y :: l))
      with (x ++ sep ++ String.concat sep (y :: l))%string.
    change (List.last (x :: y :: l) EmptyString)
      with (List.last (y :: l) EmptyString).
    rewrite IH. by rewrite !append_assoc3.
Qed.

Lemma Forall_last {A} (P : A -> Prop) (l : list A) d :
  l <> [] -> Forall P l -> P (List.last l d).
Proof.
  intros Hne Hall. induction Hall as [|x l Hx Hall IH]; [done|].
  destruct l as [|y l]; [done|]. by apply IH.
Qed.

(** X12.  The file name [Save] derives from a URL never holds a ['/'], so
    it names an entry of the output directory itself and never a path
    below it; it is the whole URL when the URL holds no ['/'], and
    otherwise what follows its last ['/'] (the empty name for a URL that
    ends in one). *)
Theorem last_segment_is_a_plain_name url :
  has_slash (last_segment url) = false
  /\ (url = last_segment url
      \/ exists prefix, url = (prefix ++ "/" ++ last_segment url)%string)
  /\ (has_slash url = false -> last_segment url = url)
  /\ last_segment (url ++ "/") = EmptyString.
Proof.
  pose proof (split_from_nonempty "/" url EmptyString) as Hne.
  pose proof (split_from_no_sep "/" url EmptyString eq_refl) as Hall.
  pose proof (split_from_concat "/" url EmptyString) as Hcat.
  change (EmptyString ++ url)%string with url in Hcat.
  split; [|split; [|split]].
  - unfold last_segment, Split. rewrite has_slash_has_char.
    apply (Forall_last (fun piece => has_char "/" piece = false) _ _ Hne
             Hall).
  - unfold last_segment, Split.
    destruct (concat_last "/" _ Hne) as [Hlast|[prefix Hlast]].
    + left. congruence.
    + right. exists prefix. congruence.
  - apply last_segment_whole.
  - by apply (last_segment_after_slash url EmptyString).
Qed.

Example last_segment_of_directory_url :
  last_segment "https://x.example.com/img/" = EmptyString.
Proof. reflexivity. Qed.

(** ** Scans that go on *)

Lemma take_serves net a offset pages n :
  serves net a offset pages -> serves net a offset (take n pages).
Proof.
  intros Hserve k pg Hk. apply Hserve.
  apply lookup_take_Some in Hk. by destruct Hk.
Qed.

(** X13.  The scan has no bound of its own on the number of pages: after
    a non-empty page of new posts only it always requests the next page.
    As long as the upstream serves such pages the scan does not return,
    and a scan that returned has requested more pages than those. *)
Theorem scan_goes_past_pages_of_new_posts net a q pages :
  lastId a <> 0 ->
  Forall (fun pg => pg <> []) pages ->
  serves net a 0 pages ->
  Forall (fun pg => Forall (fun p => lastId a < Id p /\ has_variants p) pg)
         pages ->
  limit * Z.of_nat (length pages) <= GoInt.int_max ->
  (forall fuel, (fuel <= length pages)%nat -> Run fuel net a q = None)
  /\ (forall fuel r,
         Run fuel net a q = Some r ->
         limit * Z.of_nat fuel <= GoInt.int_max ->
         (length pages < length (fetched r))%nat
         /\ exists sent, queue r = q ++ urls_of (concat pages) ++ sent).
Proof.
  intros Ha Hne Hserve Hall Hmax.
  assert (Hlim : 0 < limit) by (unfold limit; lia).
  assert (Hnone : forall fuel,
             (fuel <= length pages)%nat -> Run fuel net a q = None).
  { intros fuel Hfuel. unfold Run.
    assert (Hlen : length (take fuel pages) = fuel)
      by (rewrite length_take; lia).
    rewrite <- Hlen at 1. rewrite <- (Nat.add_0_r (length (take fuel pages))).
    rewrite (Run_loop_new_pages net a (take fuel pages) 0 0 q [] 0%nat);
      try done.
    - by right.
    - by apply Forall_take.
    - by apply take_serves.
    - by apply Forall_take.
    - rewrite Hlen. nia. }
  split; [done|]. intros fuel r Hrun Hfuel.
  destruct (Nat.le_gt_cases fuel (length pages)) as [Hle|Hgt].
  { rewrite (Hnone fuel Hle) in Hrun. done. }
  unfold Run in Hrun.
  replace fuel with (length pages + (fuel - length pages))%nat in Hrun
    by lia.
  rewrite (Run_loop_new_pages net a pages 0 0 q [] _
             (or_intror Ha) Hne Hserve Hall) in Hrun by lia.
  split.
  - destruct (Run_loop_fetched _ _ _ _ _ _ _ _ Hrun) as (n & _ & Hf);
      [nia|nia|].
    rewrite Hf, !length_app, !length_offsets. cbn [app length]. lia.
  - apply Run_loop_ends in Hrun.
    assert (Hext : forall offset lid q0 log r0,
               scan_ends net a offset lid q0 log r0 ->
               exists sent, queue r0 = q0 ++ sent).
    { clear. intros offset lid q0 log r0.
      assert (Hposts : forall W posts q1,
                 exists sent, (scan_posts W posts q1).2 = q1 ++ sent).
      { intros W posts q1.
        pose proof (scan_posts_frame W posts q1 []) as Hframe.
        rewrite app_nil_r in Hframe. rewrite Hframe.
        cbn [snd]. by eexists. }
      induction 1 as [| | |? ? q1 ? pg q' _ _ _ Hs
                      |? ? q1 ? pg q' _ _ _ Hs
                      |? ? q1 ? pg q' r1 _ _ _ Hs _ [sent IH]];
        try (exists []; cbn; by rewrite app_nil_r).
      - destruct (Hposts (lastId a) pg q1) as [sent Hsent].
        rewrite Hs in Hsent. by exists sent.
      - destruct (Hposts (lastId a) pg q1) as [sent Hsent].
        rewrite Hs in Hsent. by exists sent.
      - destruct (Hposts (lastId a) pg q1) as [sent' Hsent].
        rewrite Hs in Hsent. cbn [snd] in Hsent. subst q'.
        exists (sent' ++ sent). by rewrite IH, app_assoc. }
    destruct (Hext _ _ _ _ _ Hrun) as [sent Hsent].
    exists sent. by rewrite Hsent, app_assoc.
Qed.

Lemma scan_goes_past_pages_of_new_posts_newer :
  (forall fuel,
      (fuel <= length [page_newer])%nat ->
      Run fuel (upstream_of [ok_page page_newer; ok_page page_next])
          (blog 105) [] = None)
  /\ (forall fuel r,
         Run fuel (upstream_of [ok_page page_newer; ok_page page_next])
             (blog 105) [] = Some r ->
         limit * Z.of_nat fuel <= GoInt.int_max ->
         (length [page_newer] < length (fetched r))%nat
         /\ exists sent,
             queue r = [] ++ urls_of (concat [page_newer]) ++ sent).
Proof.
  apply (scan_goes_past_pages_of_new_posts
           (upstream_of [ok_page page_newer; ok_page page_next])
           (blog 105) [] [page_newer]).
  - simpl. lia.
  - repeat constructor; discriminate.
  - served.
  - repeat (constructor;
            [repeat (constructor;
                     [split; [simpl; lia|apply post_has_variants]|]);
             constructor|]).
    constructor.
  - vm_compute. discriminate.
Defined.
